(** * gorails/marshal: the Ruby Marshal decoder of [marshal/marshal.go]

    A shallow embedding of the decoder and the properties of it that the
    specification states.  Bytes are [Byte.byte], Go's [int] and [int64]
    are integers of [Z] wrapped to 64 bits, a Go slice is the pair of its
    visible elements and the elements between its length and its capacity,
    and the nodes ([*MarshalledObject]) live in a store addressed by
    allocation order.  A run-time panic is an outcome of its own; running
    out of memory (a [make] of a huge length) is not modelled.  The methods
    that call themselves or each other take fuel. *)

From Stdlib Require Import ZArith Lia Strings.String Strings.Byte.
From stdpp Require Import base option list gmap strings pretty.

Local Open Scope Z_scope.

(** ** Machine integers *)

Definition bz (b : byte) : Z := Z.of_N (Byte.to_N b).

(** Two's complement wrap-around of [int64] (and of [int], taken 64 bits
    wide) and the wrap-around of [byte] arithmetic. *)
Definition int64 (z : Z) : Z := (z + 2 ^ 63) mod 2 ^ 64 - 2 ^ 63.
Definition uint8 (z : Z) : Z := z mod 256.

Definition add64 (a b : Z) : Z := int64 (a + b).
Definition sub64 (a b : Z) : Z := int64 (a - b).
Definition neg64 (a : Z) : Z := int64 (- a).
Definition shl64 (a n : Z) : Z := int64 (Z.shiftl a n).
Definition sub8 (a b : Z) : Z := uint8 (a - b).
Definition add8 (a b : Z) : Z := uint8 (a + b).

(** ** Slices

    [vis] holds the elements below [len], [spare] those from [len] up to
    [cap]: indexing is checked against [len], re-slicing with an explicit
    upper bound against [cap]. *)

Record slice : Type := Slice { vis : list byte; spare : list byte }.

Definition len (s : slice) : Z := Z.of_nat (length (vis s)).
Definition cap (s : slice) : Z := Z.of_nat (length (vis s) + length (spare s)).

(** [s[i]]; [None] is the run-time panic "index out of range". *)
Definition index (s : slice) (i : Z) : option byte :=
  if 0 <=? i then vis s !! Z.to_nat i else None.

(** [s[lo:]] *)
Definition slice_from (s : slice) (lo : Z) : option slice :=
  if (0 <=? lo) && (lo <=? len s)
  then Some (Slice (drop (Z.to_nat lo) (vis s)) (spare s))
  else None.

(** [s[lo:hi]] *)
Definition slice_range (s : slice) (lo hi : Z) : option slice :=
  if (0 <=? lo) && (lo <=? hi) && (hi <=? cap s)
  then let all := vis s ++ spare s in
       Some (Slice (take (Z.to_nat (hi - lo)) (drop (Z.to_nat lo) all))
                   (drop (Z.to_nat hi) all))
  else None.

(** A Go string is a sequence of bytes; [string(b)] keeps them. *)
Definition go_string (s : slice) : string := string_of_list_byte (vis s).

(** ** Tag bytes *)

Definition tag_nil : byte := x30.      (* '0' *)
Definition tag_true : byte := x54.     (* 'T' *)
Definition tag_false : byte := x46.    (* 'F' *)
Definition tag_int : byte := x69.      (* 'i' *)
Definition tag_float : byte := x66.    (* 'f' *)
Definition tag_symbol : byte := x3a.   (* ':' *)
Definition tag_symlink : byte := x3b.  (* ';' *)
Definition tag_ivar : byte := x49.     (* 'I' *)
Definition tag_quote : byte := x22.    (* the double quote *)
Definition tag_array : byte := x5b.    (* '[' *)
Definition tag_map : byte := x7b.      (* '{' *)
Definition tag_link : byte := x40.     (* '@' *)

(** ** The parsers (pure; [None] is a run-time panic) *)

Definition parseBool (data : slice) : option (bool * Z) :=
  b ← index data 0;
  Some (Byte.eqb b tag_true, 1).

(** The two counting loops of [parseInt]:
    [for ; i > 0; i-- { value = value<<8 + f(data[i]) }]. *)
Fixpoint assemble (f : Z -> Z) (data : slice) (i : nat) (value : Z) : option Z :=
  match i with
  | O => Some value
  | S i' =>
      x ← index data (Z.of_nat i);
      assemble f data i' (add64 (shl64 value 8) (f (bz x)))
  end.

Definition parseInt (data : slice) : option (Z * Z) :=
  b ← index data 0;
  let d0 := bz b in
  if (0x05 <? d0) && (d0 <? 0xfb) then
    let value := d0 in
    if 0x7f <? value
    then Some (add64 (neg64 (add64 (Z.lxor 0xff value) 1)) 5, 1)
    else Some (sub64 value 5, 1)
  else if d0 <=? 0x05 then
    value ← assemble (fun x => x) data (Z.to_nat d0) 0;
    Some (value, add8 d0 1)
  else
    value ← assemble (fun x => sub64 0xff x) data (Z.to_nat (add8 (sub8 0xff d0) 1)) 0;
    Some (neg64 (add64 value 1), add8 (sub8 0xff d0) 2).

Definition parseString (data : slice) : option (string * Z) :=
  '(length, headerSize) ← parseInt data;
  let size := add64 length headerSize in
  s ← slice_range data headerSize size;
  Some (go_string s, size).

Definition parseStringWithEncoding (data : slice) : option (string * Z * list string) :=
  let cache : list string := [] in
  '(value, size) ← parseString data;
  if add64 size 1 <? len data then
    c ← index data (add64 size 1);
    if Byte.eqb c tag_symbol || Byte.eqb c tag_symlink then
      '(size, cache) ←
        (if Byte.eqb c tag_symlink then
           d ← slice_from data (add64 size 2);
           '(_, encSize) ← parseInt d;
           Some (add64 size (add64 encSize 1), cache)
         else
           d ← slice_from data (add64 size 2);
           '(encSymbol, encSize) ← parseString d;
           Some (add64 size (add64 encSize 1), cache ++ [encSymbol]));
      c' ← index data (add64 size 1);
      size ←
        (if Byte.eqb c' tag_quote then
           d ← slice_from data (add64 size 2);
           '(_, encNameSize) ← parseString d;
           Some (add64 size (add64 encNameSize 1))
         else
           d ← slice_from data (add64 size 1);
           '(_, encNameSize) ← parseBool d;
           Some (add64 size encNameSize));
      Some (value, add64 size 1, cache)
    else Some (value, size, cache)
  else Some (value, size, cache).

(** ** The store

    A node is addressed by the position at which it was allocated.  All the
    nodes of one root carry the same two table pointers (every constructor
    call passes [obj.symbolCache] and [obj.objectCache] on unchanged), so
    the store of a root holds one symbol table and one object table. *)

Abbreviation ptr := nat.

Record MarshalledObject : Type := Node {
  MajorVersion : byte;
  MinorVersion : byte;
  data : slice;
  size : Z
}.

Record State : Type := Store {
  heap : list MarshalledObject;
  symbolCache : list string;
  objectCache : list ptr
}.

Inductive marshalledObjectType : Type :=
| TYPE_UNKNOWN | TYPE_NIL | TYPE_BOOL | TYPE_INTEGER
| TYPE_FLOAT | TYPE_STRING | TYPE_ARRAY | TYPE_MAP.

Global Instance marshalledObjectType_eq_dec : EqDecision marshalledObjectType.
Proof. solve_decision. Defined.

(** The errors of [strconv.ParseFloat], and the errors an accessor can
    return: the two error values the package declares and a wrapped
    [strconv] error. *)
Inductive NumErr : Type := ErrSyntax | ErrRange.

Inductive error : Type :=
| TypeMismatch
| IncompleteData
| NumError (e : NumErr).

(** [strconv] is not part of the repository: its three functions are an
    interface of the development. *)
Class Strconv : Type := {
  float64 : Type;
  float64_zero : float64;
  ParseFloat : string -> float64 * option NumErr;
  FormatFloat : float64 -> string;
  FormatInt : Z -> string
}.

(** ** The monad of the methods: state, panics and fuel

    A panic keeps the store it happened in (what a recovering caller
    sees); [OutOfFuel] is the only outcome that is not one of the program. *)

Inductive outcome (A : Type) : Type :=
| Ret (a : A) (s : State)
| Panic (s : State)
| OutOfFuel.
Arguments Ret {A} a s.
Arguments Panic {A} s.
Arguments OutOfFuel {A}.

Definition M (A : Type) : Type := State -> outcome A.

Definition ret {A} (a : A) : M A := fun s => Ret a s.
Definition panic {A} : M A := fun s => Panic s.
Definition out_of_fuel {A} : M A := fun _ => OutOfFuel.
Definition bind {A B} (m : M A) (f : A -> M B) : M B :=
  fun s => match m s with
           | Ret a s' => f a s'
           | Panic s' => Panic s'
           | OutOfFuel => OutOfFuel
           end.
Definition lift {A} (o : option A) : M A :=
  match o with Some a => ret a | None => panic end.

Notation "x <- c1 ;; c2" := (bind c1 (fun x => c2))
  (at level 20, c1 at level 99, c2 at level 200, only parsing).
Notation "' pat <- c1 ;; c2" := (bind c1 (fun x => match x with pat => c2 end))
  (at level 20, pat pattern, c1 at level 99, c2 at level 200, only parsing).
Notation "c1 ;; c2" := (bind c1 (fun _ => c2))
  (at level 100, c2 at level 200, right associativity, only parsing).

Definition load (p : ptr) : M MarshalledObject :=
  fun s => match heap s !! p with Some o => Ret o s | None => Panic s end.

Definition readSymbolCache : M (list string) := fun s => Ret (symbolCache s) s.
Definition readObjectCache : M (list ptr) := fun s => Ret (objectCache s) s.
Definition writeSymbolCache (c : list string) : M unit :=
  fun s => Ret tt (Store (heap s) c (objectCache s)).
Definition writeObjectCache (c : list ptr) : M unit :=
  fun s => Ret tt (Store (heap s) (symbolCache s) c).

(** [obj.size = n] *)
Definition setSize (p : ptr) (n : Z) : M unit :=
  fun s => match heap s !! p with
           | Some o =>
               Ret tt (Store (<[p := Node (MajorVersion o) (MinorVersion o) (data o) n]> (heap s))
                             (symbolCache s) (objectCache s))
           | None => Panic s
           end.

Definition newMarshalledObjectWithSize (majorVersion minorVersion : byte)
    (d : slice) (sz : Z) : M ptr :=
  fun s => Ret (length (heap s))
               (Store (heap s ++ [Node majorVersion minorVersion d sz])
                      (symbolCache s) (objectCache s)).

Definition newMarshalledObject (majorVersion minorVersion : byte) (d : slice) : M ptr :=
  newMarshalledObjectWithSize majorVersion minorVersion d (len d).

Definition empty_store : State := Store [] [] [].

Definition CreateMarshalledObject (serializedData : slice) : outcome ptr :=
  (majorVersion <- lift (index serializedData 0);;
   minorVersion <- lift (index serializedData 1);;
   d <- lift (slice_from serializedData 2);;
   newMarshalledObject majorVersion minorVersion d) empty_store.

Definition is_link (b : byte) : bool := Byte.eqb b tag_link.

(** [len(d) > 0 && P(d[0])] *)
Definition first_is (d : slice) (P : byte -> bool) : bool :=
  (0 <? len d) && match index d 0 with Some b => P b | None => false end.

(** [c[i]] on a table *)
Definition at_index {A} (c : list A) (i : Z) : option A :=
  if 0 <=? i then c !! Z.to_nat i else None.

Definition resolveObjectLink (obj : ptr) : M (option ptr) :=
  o <- load obj;;
  if first_is (data o) is_link then
    d <- lift (slice_from (data o) 1);;
    ' (idx, _) <- lift (parseInt d);;
    cache <- readObjectCache;;
    if idx <? Z.of_nat (length cache)
    then r <- lift (at_index cache idx);; ret (Some r)
    else ret None
  else ret None.

Definition type_of_tag (d : slice) (b : byte) : marshalledObjectType :=
  if Byte.eqb b tag_nil then TYPE_NIL
  else if Byte.eqb b tag_true || Byte.eqb b tag_false then TYPE_BOOL
  else if Byte.eqb b tag_int then TYPE_INTEGER
  else if Byte.eqb b tag_float then TYPE_FLOAT
  else if Byte.eqb b tag_symbol || Byte.eqb b tag_symlink then TYPE_STRING
  else if Byte.eqb b tag_ivar then
    if (1 <? len d) && match index d 1 with Some c => Byte.eqb c tag_quote | None => false end
    then TYPE_STRING else TYPE_UNKNOWN
  else if Byte.eqb b tag_array then TYPE_ARRAY
  else if Byte.eqb b tag_map then TYPE_MAP
  else TYPE_UNKNOWN.

Fixpoint GetType (fuel : nat) (obj : ptr) : M marshalledObjectType :=
  match fuel with
  | O => out_of_fuel
  | S n =>
      o <- load obj;;
      if len (data o) =? 0 then ret TYPE_UNKNOWN
      else
        ref <- resolveObjectLink obj;;
        match ref with
        | Some r => GetType n r
        | None => b <- lift (index (data o) 0);; ret (type_of_tag (data o) b)
        end
  end.

Definition assertType (fuel : nat) (obj : ptr) (expectedType : marshalledObjectType)
    : M (option error) :=
  t <- GetType fuel obj;;
  if decide (t = expectedType) then ret None else ret (Some TypeMismatch).

Definition GetAsBool (fuel : nat) (obj : ptr) : M (bool * option error) :=
  err <- assertType fuel obj TYPE_BOOL;;
  match err with
  | Some e => ret (false, Some e)
  | None =>
      o <- load obj;;
      ' (value, _) <- lift (parseBool (data o));;
      ret (value, None)
  end.

Definition GetAsInteger (fuel : nat) (obj : ptr) : M (Z * option error) :=
  err <- assertType fuel obj TYPE_INTEGER;;
  match err with
  | Some e => ret (0, Some e)
  | None =>
      o <- load obj;;
      d <- lift (slice_from (data o) 1);;
      ' (value, _) <- lift (parseInt d);;
      ret (value, None)
  end.

Definition GetAsFloat `{Strconv} (fuel : nat) (obj : ptr) : M (float64 * option error) :=
  err <- assertType fuel obj TYPE_FLOAT;;
  match err with
  | Some e => ret (float64_zero, Some e)
  | None =>
      o <- load obj;;
      d <- lift (slice_from (data o) 1);;
      ' (str, _) <- lift (parseString d);;
      let '(value, err) := ParseFloat str in
      ret (value, NumError <$> err)
  end.

Definition is_sigil (b : byte) : bool :=
  is_link b || Byte.eqb b tag_symbol || Byte.eqb b tag_symlink.

Definition registrable (t : marshalledObjectType) : bool :=
  match t with TYPE_STRING | TYPE_ARRAY | TYPE_MAP => true | _ => false end.

(** [obj.cacheObject(object)]: the kind that is tested is the receiver's. *)
Definition cacheObject (fuel : nat) (obj object : ptr) : M unit :=
  ob <- load object;;
  if first_is (data ob) is_sigil then ret tt
  else
    t <- GetType fuel obj;;
    if negb (registrable t) then ret tt
    else
      cache <- readObjectCache;;
      if bool_decide (object ∈ cache) then ret tt
      else writeObjectCache (cache ++ [object]).

(** [obj.cacheSymbols(symbols...)]: [known] is built from the table as it
    is on entry and is not extended by the loop. *)
Definition cacheSymbols (symbols : list string) : M unit :=
  if bool_decide (symbols = []) then ret tt
  else
    cache <- readSymbolCache;;
    let known : gset string := list_to_set cache in
    writeSymbolCache
      (foldl (fun c symbol => if bool_decide (symbol ∈ known) then c else c ++ [symbol])
             cache symbols).

Fixpoint GetAsString (fuel : nat) (obj : ptr) : M (string * option error) :=
  match fuel with
  | O => out_of_fuel
  | S n =>
      ref <- resolveObjectLink obj;;
      match ref with
      | Some r => GetAsString n r
      | None =>
          err <- assertType n obj TYPE_STRING;;
          match err with
          | Some e => ret (EmptyString, Some e)
          | None =>
              cacheObject n obj obj;;
              o <- load obj;;
              b <- lift (index (data o) 0);;
              if Byte.eqb b tag_symbol then
                d <- lift (slice_from (data o) 1);;
                ' (value, _) <- lift (parseString d);;
                cacheSymbols [value];;
                ret (value, None)
              else if Byte.eqb b tag_symlink then
                d <- lift (slice_from (data o) 1);;
                ' (refIndex, _) <- lift (parseInt d);;
                cache <- readSymbolCache;;
                value <- lift (at_index cache refIndex);;
                ret (value, None)
              else
                d <- lift (slice_from (data o) 2);;
                ' (value, _, cache) <- lift (parseStringWithEncoding d);;
                cacheSymbols cache;;
                ret (value, None)
          end
      end
  end.

Definition ToString `{Strconv} (fuel : nat) (obj : ptr) : M string :=
  t <- GetType fuel obj;;
  match t with
  | TYPE_NIL => ret "<nil>"%string
  | TYPE_BOOL =>
      ' (v, _) <- GetAsBool fuel obj;;
      ret (if v : bool then "true" else "false")%string
  | TYPE_INTEGER => ' (v, _) <- GetAsInteger fuel obj;; ret (FormatInt v)
  | TYPE_STRING => ' (str, _) <- GetAsString fuel obj;; ret str
  | TYPE_FLOAT => ' (v, _) <- GetAsFloat fuel obj;; ret (FormatFloat v)
  | _ => ret EmptyString
  end.
(** ** Containers and sizes

    [GetAsArray], [GetAsMap] and [getSize] call each other; the bodies of
    the two [for] loops are given first, over the [getSize] they call. *)

Section Containers.
Context `{Strconv}.

(** The loop of [GetAsArray], from element [i] on: [count] elements are
    left, [value] holds the handles stored so far. *)
Fixpoint arrayLoop (getSize : ptr -> M Z) (fuel : nat) (obj : ptr)
    (count : nat) (offset : Z) (value : list ptr) : M (list ptr * Z) :=
  match count with
  | O => ret (value, offset)
  | S count' =>
      o <- load obj;;
      d <- lift (slice_from (data o) offset);;
      tmp <- newMarshalledObjectWithSize (MajorVersion o) (MinorVersion o) d 0;;
      valueSize <- getSize tmp;;
      d' <- lift (slice_range (data o) offset (add64 offset valueSize));;
      v <- newMarshalledObject (MajorVersion o) (MinorVersion o) d';;
      cacheObject fuel obj v;;
      arrayLoop getSize fuel obj count' (add64 offset valueSize) (value ++ [v])
  end.

(** The loop of [GetAsMap]. *)
Fixpoint mapLoop (getSize : ptr -> M Z) (fuel : nat) (obj : ptr)
    (count : nat) (offset : Z) (value : gmap string ptr) : M (gmap string ptr * Z) :=
  match count with
  | O => ret (value, offset)
  | S count' =>
      o <- load obj;;
      d <- lift (slice_from (data o) offset);;
      k <- newMarshalledObject (MajorVersion o) (MinorVersion o) d;;
      cacheObject fuel obj k;;
      keySize <- getSize k;;
      let offset := add64 offset keySize in
      d <- lift (slice_from (data o) offset);;
      tmp <- newMarshalledObjectWithSize (MajorVersion o) (MinorVersion o) d 0;;
      valueSize <- getSize tmp;;
      d' <- lift (slice_range (data o) offset (add64 offset valueSize));;
      v <- newMarshalledObject (MajorVersion o) (MinorVersion o) d';;
      cacheObject fuel obj v;;
      key <- ToString fuel k;;
      mapLoop getSize fuel obj count' (add64 offset valueSize) (<[key := v]> value)
  end.

Fixpoint GetAsArray (fuel : nat) (obj : ptr) : M (list ptr * option error) :=
  match fuel with
  | O => out_of_fuel
  | S n =>
      ref <- resolveObjectLink obj;;
      match ref with
      | Some r => GetAsArray n r
      | None =>
          err <- assertType n obj TYPE_ARRAY;;
          match err with
          | Some e => ret ([], Some e)
          | None =>
              cacheObject n obj obj;;
              o <- load obj;;
              d <- lift (slice_from (data o) 1);;
              ' (arraySize, offset) <- lift (parseInt d);;
              let offset := add64 offset 1 in
              (* make([]*MarshalledObject, arraySize) panics on a negative length *)
              if arraySize <? 0 then panic
              else
                ' (value, offset) <-
                  arrayLoop (getSize n) n obj (Z.to_nat arraySize) offset [];;
                setSize obj offset;;
                ret (value, None)
          end
      end
  end

with GetAsMap (fuel : nat) (obj : ptr) : M (gmap string ptr * option error) :=
  match fuel with
  | O => out_of_fuel
  | S n =>
      ref <- resolveObjectLink obj;;
      match ref with
      | Some r => GetAsMap n r
      | None =>
          err <- assertType n obj TYPE_MAP;;
          match err with
          | Some e => ret (∅, Some e)
          | None =>
              cacheObject n obj obj;;
              o <- load obj;;
              d <- lift (slice_from (data o) 1);;
              ' (mapSize, offset) <- lift (parseInt d);;
              let offset := add64 offset 1 in
              (* make(map, mapSize) takes a negative hint as no hint *)
              ' (value, offset) <-
                mapLoop (getSize n) n obj (Z.to_nat mapSize) offset ∅;;
              setSize obj offset;;
              ret (value, None)
          end
      end
  end

with getSize (fuel : nat) (obj : ptr) : M Z :=
  match fuel with
  | O => out_of_fuel
  | S n =>
      o <- load obj;;
      if first_is (data o) is_link then
        d <- lift (slice_from (data o) 1);;
        ' (_, dataSize) <- lift (parseInt d);;
        ret (add64 1 dataSize)
      else
        t <- GetType n obj;;
        match t with
        | TYPE_NIL | TYPE_BOOL => ret (add64 0 1)
        | TYPE_INTEGER =>
            d <- lift (slice_from (data o) 1);;
            ' (_, dataSize) <- lift (parseInt d);;
            ret (add64 1 dataSize)
        | TYPE_STRING | TYPE_FLOAT =>
            b <- lift (index (data o) 0);;
            if Byte.eqb b tag_symlink then
              d <- lift (slice_from (data o) 1);;
              ' (_, dataSize) <- lift (parseInt d);;
              ret (add64 1 dataSize)
            else if Byte.eqb b tag_ivar then
              d <- lift (slice_from (data o) 2);;
              ' (_, dataSize, cache) <- lift (parseStringWithEncoding d);;
              cacheSymbols cache;;
              ret (add64 2 dataSize)
            else
              d <- lift (slice_from (data o) 1);;
              ' (symbol, dataSize) <- lift (parseString d);;
              cacheSymbols [symbol];;
              ret (add64 1 dataSize)
        | TYPE_ARRAY =>
            (if size o =? 0 then GetAsArray n obj;; ret tt else ret tt);;
            o' <- load obj;;
            ret (size o')
        | TYPE_MAP =>
            (if size o =? 0 then GetAsMap n obj;; ret tt else ret tt);;
            o' <- load obj;;
            ret (size o')
        | TYPE_UNKNOWN => ret (add64 0 0)
        end
  end.

End Containers.

(** * The vocabulary of the statements *)

(** ** Outcomes *)

(** The store in which a call ended, by returning or by panicking. *)
Definition final {A} (o : outcome A) : option State :=
  match o with
  | Ret _ s | Panic s => Some s
  | OutOfFuel => None
  end.

(** What a call returned, if it returned. *)
Definition value_of {A} (o : outcome A) : option A :=
  match o with Ret a _ => Some a | _ => None end.

(** [respects R m]: the store in which [m] ends, by returning or by
    panicking, is [R]-related to the one it started in. *)
Definition respects (R : relation State) {A} (m : M A) : Prop :=
  forall s s', final (m s) = Some s' -> R s s'.

(** [returns P m]: whatever [m] returns satisfies [P]. *)
Definition returns {A} (P : A -> Prop) (m : M A) : Prop :=
  forall s a s', m s = Ret a s' -> P a.



(** ** Stores that grow *)

(** [grows fresh old new]: [new] is [old] followed by distinct entries that
    [old] does not hold and that satisfy [fresh]. *)
Definition grows {A} (fresh : A -> Prop) (old new : list A) : Prop :=
  exists added,
    new = old ++ added /\ NoDup added /\
    (forall x, x ∈ added -> x ∉ old) /\ Forall fresh added.

(** A handle that may sit in the object table of store [s]: it is
    allocated and its data does not start with ['@'], [':'] or [';']. *)
Definition plain (s : State) (p : ptr) : Prop :=
  exists o, heap s !! p = Some o /\ first_is (data o) is_sigil = false.

(** [ext s s']: every node of [s] is still there with the same bytes and
    version, and both tables have only grown. *)
Record ext (s s' : State) : Prop := Ext {
  ext_heap : forall p o, heap s !! p = Some o ->
    exists o', heap s' !! p = Some o' /\ data o' = data o /\
      MajorVersion o' = MajorVersion o /\ MinorVersion o' = MinorVersion o;
  ext_symbols : grows (fun _ => True) (symbolCache s) (symbolCache s');
  ext_objects : grows (plain s') (objectCache s) (objectCache s')
}.

(** The store is well formed when the symbol table holds no string twice
    and the object table holds distinct plain handles. *)
Record wf (s : State) : Prop := Wf {
  wf_symbols : NoDup (symbolCache s);
  wf_objects : NoDup (objectCache s);
  wf_plain : Forall (plain s) (objectCache s)
}.

(** ** Calls and the stores they reach *)

(** The public operations, as a caller invokes them on a handle, and the
    private size computation. *)
Inductive call : Type :=
| CallGetType (obj : ptr)
| CallGetAsBool (obj : ptr)
| CallGetAsInteger (obj : ptr)
| CallGetAsFloat (obj : ptr)
| CallGetAsString (obj : ptr)
| CallGetAsArray (obj : ptr)
| CallGetAsMap (obj : ptr)
| CallToString (obj : ptr)
| CallGetSize (obj : ptr).

(** One call, its result dropped. *)
Definition perform `{Strconv} (fuel : nat) (c : call) : M unit :=
  match c with
  | CallGetType obj => GetType fuel obj;; ret tt
  | CallGetAsBool obj => GetAsBool fuel obj;; ret tt
  | CallGetAsInteger obj => GetAsInteger fuel obj;; ret tt
  | CallGetAsFloat obj => GetAsFloat fuel obj;; ret tt
  | CallGetAsString obj => GetAsString fuel obj;; ret tt
  | CallGetAsArray obj => GetAsArray fuel obj;; ret tt
  | CallGetAsMap obj => GetAsMap fuel obj;; ret tt
  | CallToString obj => ToString fuel obj;; ret tt
  | CallGetSize obj => getSize fuel obj;; ret tt
  end.

(** [calls s s']: some sequence of calls leads from [s] to [s'] (a call
    that panicked counts, with the store it panicked in). *)
Inductive calls `{Strconv} : State -> State -> Prop :=
| calls_nil s : calls s s
| calls_step s s1 s2 fuel c :
    calls s s1 -> final (perform fuel c s1) = Some s2 -> calls s s2.

(** The stores a caller can reach from the decoding of [input]. *)
Definition reachable `{Strconv} (input : slice) (s : State) : Prop :=
  exists root s0, CreateMarshalledObject input = Ret root s0 /\ calls s0 s.

(** ** Links *)

(** What [resolveObjectLink] computes from the node and the store it reads:
    [None] is a panic, [Some None] the nil link. *)
Definition link_target (s : State) (o : MarshalledObject) : option (option ptr) :=
  if first_is (data o) is_link then
    d ← slice_from (data o) 1;
    '(idx, _) ← parseInt d;
    if idx <? Z.of_nat (length (objectCache s))
    then r ← at_index (objectCache s) idx; Some (Some r)
    else Some None
  else Some None.

(** A link whose index is not below the length of the object table. *)
Definition unresolved_link (s : State) (p : ptr) : bool :=
  match heap s !! p with
  | Some o =>
      first_is (data o) is_link &&
      match link_target s o with Some None => true | _ => false end
  | None => false
  end.

(** ** The value of a varint payload, in the specification's words *)

(** The bytes taken in little-endian order, the first one the least
    significant. *)
Definition le_value (bs : list Z) : Z := foldr (fun x acc => x + 256 * acc) 0 bs.

(** The number of payload bytes that the first byte of a varint announces:
    none for an inline value. *)
Definition payload_bytes (b : byte) : Z :=
  if bz b <=? 5 then bz b
  else if 0xfb <=? bz b then 256 - bz b
  else 0.

(** ** Kinds, registration and interning, read off a node and a store *)

(** The kind that the first bytes of a node spell. *)
Definition kind_of_data (d : slice) : marshalledObjectType :=
  match index d 0 with
  | Some b => type_of_tag d b
  | None => TYPE_UNKNOWN
  end.

(** The store once handle [p] is in the object table. *)
Definition register (p : ptr) (s : State) : State :=
  if bool_decide (p ∈ objectCache s) then s
  else Store (heap s) (symbolCache s) (objectCache s ++ [p]).

(** The store once string [x] is in the symbol table. *)
Definition intern (x : string) (s : State) : State :=
  if bool_decide (x ∈ symbolCache s) then s
  else Store (heap s) (symbolCache s ++ [x]) (objectCache s).

(** The store once the first string of [symbols], if there is one, is in
    the symbol table. *)
Definition intern_first (symbols : list string) (s : State) : State :=
  match symbols with
  | [] => s
  | x :: _ => intern x s
  end.

(** The store once node [p] has size [n]. *)
Definition with_size (p : ptr) (n : Z) (s : State) : State :=
  match heap s !! p with
  | Some o =>
      Store (<[p := Node (MajorVersion o) (MinorVersion o) (data o) n]> (heap s))
            (symbolCache s) (objectCache s)
  | None => s
  end.

(** ** The pairs of a map *)

Section MapPairs.
Context `{Strconv}.

(** The loop of [GetAsMap] with the map left out: the same steps on the
    store, returning the pairs of key text and value handle in the order in
    which the loop stores them. *)
Fixpoint mapLoopPairs (getSize : ptr -> M Z) (fuel : nat) (obj : ptr)
    (count : nat) (offset : Z) : M (list (string * ptr) * Z) :=
  match count with
  | O => ret ([], offset)
  | S count' =>
      o <- load obj;;
      d <- lift (slice_from (data o) offset);;
      k <- newMarshalledObject (MajorVersion o) (MinorVersion o) d;;
      cacheObject fuel obj k;;
      keySize <- getSize k;;
      let offset := add64 offset keySize in
      d <- lift (slice_from (data o) offset);;
      tmp <- newMarshalledObjectWithSize (MajorVersion o) (MinorVersion o) d 0;;
      valueSize <- getSize tmp;;
      d' <- lift (slice_range (data o) offset (add64 offset valueSize));;
      v <- newMarshalledObject (MajorVersion o) (MinorVersion o) d';;
      cacheObject fuel obj v;;
      key <- ToString fuel k;;
      ' (pairs, offset) <- mapLoopPairs getSize fuel obj count' (add64 offset valueSize);;
      ret ((key, v) :: pairs, offset)
  end.

End MapPairs.

(** The map [value] once [pairs] have been stored in it, one after the
    other. *)
Definition store_pairs (pairs : list (string * ptr)) (value : gmap string ptr)
    : gmap string ptr :=
  foldl (fun m kv => <[fst kv := snd kv]> m) value pairs.

(** Pair [i] of [pairs] is the last one with the text [key]. *)
Definition last_with (pairs : list (string * ptr)) (key : string) (i : nat) (v : ptr)
    : Prop :=
  pairs !! i = Some (key, v) /\
  forall j v', (i < j)%nat -> pairs !! j <> Some (key, v').

(** ** Nodes and their versions *)

(** Two stores with the same nodes. *)
Definition same_heap : relation State := fun s s' => heap s' = heap s.

(** Every node of the store carries the version [a], [b]. *)
Definition all_version (a b : byte) (s : State) : Prop :=
  Forall (fun o => MajorVersion o = a /\ MinorVersion o = b) (heap s).

(** A step that keeps the version of all nodes. *)
Definition keeps_version (a b : byte) : relation State :=
  fun s s' => all_version a b s -> all_version a b s'.

(** ** Concrete inputs *)

(** A buffer whose capacity is its length. *)
Definition buf (l : list byte) : slice := Slice l [].

(** An instance of the [strconv] interface, to run the decoder on concrete
    inputs: a float is kept as the text of its literal, an integer is
    printed in decimal. *)
Definition literal_strconv : Strconv :=
  {| float64 := string;
     float64_zero := "0"%string;
     ParseFloat := fun str => (str, None);
     FormatFloat := fun v => v;
     FormatInt := pretty |}.

(** The store after one call, with [literal_strconv] and fuel 3. *)
Definition after (c : call) (s : State) : State :=
  match final (perform (H := literal_strconv) 3 c s) with
  | Some s' => s'
  | None => s
  end.

(** Scenario 6 of the specification, the string hi with its [:E] flag,
    and the store of its root. *)
Definition hi_input : slice :=
  buf [x04; x08; x49; x22; x07; x68; x69; x06; x3a; x06; x45; x54].

Definition hi_store : State :=
  Store [Node x04 x08 (buf [x49; x22; x07; x68; x69; x06; x3a; x06; x45; x54]) 10] [] [].

(** The array [[1]]. *)
Definition int_array_input : slice := buf [x04; x08; x5b; x06; x69; x06].

Definition int_array_store : State :=
  Store [Node x04 x08 (buf [x5b; x06; x69; x06]) 4] [] [].

(** An array of the link [@2] and nil: the link points past the table. *)
Definition dangling_input : slice := buf [x04; x08; x5b; x07; x40; x07; x30].

(** An array of the integer 1 and the link [@1], and its store before and
    after one and two calls of [GetAsArray] on the root. *)
Definition linked_input : slice := buf [x04; x08; x5b; x07; x69; x06; x40; x06].

Definition linked_store : State :=
  Store [Node x04 x08 (buf [x5b; x07; x69; x06; x40; x06]) 6] [] [].

Definition linked_store_1 : State :=
  Eval vm_compute in after (CallGetAsArray 0%nat) linked_store.

Definition linked_store_2 : State :=
  Eval vm_compute in after (CallGetAsArray 0%nat) linked_store_1.

(** An array of true, the integer 42 and links to both, [@1] and [@2],
    after [GetAsArray] on the root: the elements are the handles 2, 4, 6
    and 8. *)
Definition links_store : State :=
  Eval vm_compute in
    after (CallGetAsArray 0%nat)
      (Store [Node x04 x08 (buf [x5b; x09; x54; x69; x2f; x40; x06; x40; x07]) 9] [] []).



(** The map [{:a => nil, ;0 => true}]: both keys have the text [a]. *)
Definition same_key_store : State :=
  Store [Node x04 x08 (buf [x7b; x07; x3a; x06; x61; x30; x3b; x00; x54]) 9] [] [].

(** * Properties *)

(** ** What a call leaves behind *)

Section Respects.
Variable R : relation State.
Hypothesis R_refl : Reflexive R.
Hypothesis R_trans : Transitive R.

Lemma respects_ret {A} (a : A) : respects R (ret a).
Proof. intros s s' [= <-]. reflexivity. Qed.

Lemma respects_panic {A} : respects R (@panic A).
Proof. intros s s' [= <-]. reflexivity. Qed.

Lemma respects_out_of_fuel {A} : respects R (@out_of_fuel A).
Proof. intros s s' [=]. Qed.

Lemma respects_lift {A} (o : option A) : respects R (lift o).
Proof. destruct o; [apply respects_ret | apply respects_panic]. Qed.

Lemma respects_bind {A B} (m : M A) (f : A -> M B) :
  respects R m -> (forall a, respects R (f a)) -> respects R (bind m f).
Proof.
  intros Hm Hf s s'. unfold bind.
  destruct (m s) as [a s1 | s1 | ] eqn:E; simpl.
  - intros Hs'. transitivity s1.
    + apply Hm. rewrite E. reflexivity.
    + eapply Hf, Hs'.
  - intros [= <-]. apply Hm. rewrite E. reflexivity.
  - discriminate.
Qed.

(** A bind on a parser keeps the equation of what was parsed. *)
Lemma respects_bind_lift {A B} (o : option A) (f : A -> M B) :
  (forall a, o = Some a -> respects R (f a)) -> respects R (bind (lift o) f).
Proof.
  intros Hf. destruct o as [a | ].
  - intros s s'. unfold bind, lift, ret. apply (Hf a eq_refl).
  - intros s s' [= <-]. reflexivity.
Qed.

Lemma respects_load p : respects R (load p).
Proof.
  intros s s'. unfold load. destruct (heap s !! p); intros [= <-]; reflexivity.
Qed.

Lemma respects_readSymbolCache : respects R readSymbolCache.
Proof. intros s s' [= <-]. reflexivity. Qed.

Lemma respects_readObjectCache : respects R readObjectCache.
Proof. intros s s' [= <-]. reflexivity. Qed.
End Respects.

Lemma respects_eq {A} (R : relation State) `{!Reflexive R} (m : M A) :
  respects eq m -> respects R m.
Proof. intros Hm s s' Hs. rewrite (Hm s s' Hs). reflexivity. Qed.

(** One step of a proof of [respects]: follow the shape of the code. *)
Ltac respects_step :=
  match goal with
  | |- respects _ (ret _) => apply respects_ret; try typeclasses eauto
  | |- respects _ panic => apply respects_panic; try typeclasses eauto
  | |- respects _ out_of_fuel => apply respects_out_of_fuel
  | |- respects _ (lift _) => apply respects_lift; try typeclasses eauto
  | |- respects _ (load _) => apply respects_load; try typeclasses eauto
  | |- respects _ readSymbolCache => apply respects_readSymbolCache; try typeclasses eauto
  | |- respects _ readObjectCache => apply respects_readObjectCache; try typeclasses eauto
  | |- respects _ (bind (lift _) _) =>
      apply respects_bind_lift; [try typeclasses eauto .. | intros ? ?]
  | |- respects _ (bind _ _) =>
      apply respects_bind; [try typeclasses eauto .. | | intros ?]
  | |- respects _ (if ?c then _ else _) => destruct c eqn:?
  | |- respects _ (match ?x with _ => _ end) => destruct x eqn:?
  | |- respects _ (let '(_, _) := ?x in _) => destruct x eqn:?
  end.

Create HintDb frame.

Ltac respects_auto := repeat (respects_step; eauto with frame).

(** *** Calls that only read *)

Lemma resolveObjectLink_readonly obj : respects eq (resolveObjectLink obj).
Proof. unfold resolveObjectLink. respects_auto. Qed.
#[export] Hint Resolve resolveObjectLink_readonly : frame.

Lemma GetType_readonly fuel : forall obj, respects eq (GetType fuel obj).
Proof. induction fuel as [| n IH]; intros obj; simpl; respects_auto. Qed.
#[export] Hint Resolve GetType_readonly : frame.

Lemma assertType_readonly fuel obj t : respects eq (assertType fuel obj t).
Proof. unfold assertType. respects_auto. Qed.
#[export] Hint Resolve assertType_readonly : frame.

Lemma GetAsBool_readonly fuel obj : respects eq (GetAsBool fuel obj).
Proof. unfold GetAsBool. respects_auto. Qed.

Lemma GetAsInteger_readonly fuel obj : respects eq (GetAsInteger fuel obj).
Proof. unfold GetAsInteger. respects_auto. Qed.

Lemma GetAsFloat_readonly `{Strconv} fuel obj : respects eq (GetAsFloat fuel obj).
Proof. unfold GetAsFloat. respects_auto. Qed.
#[export] Hint Resolve GetAsBool_readonly GetAsInteger_readonly GetAsFloat_readonly : frame.

(** *** The tables only grow *)

Lemma grows_refl {A} (fresh : A -> Prop) (l : list A) : grows fresh l l.
Proof.
  exists []. rewrite app_nil_r. repeat split; auto using NoDup_nil_2.
  intros x Hx. inversion Hx.
Qed.

Lemma grows_trans {A} (f1 f2 : A -> Prop) (l1 l2 l3 : list A) :
  (forall x, f1 x -> f2 x) ->
  grows f1 l1 l2 -> grows f2 l2 l3 -> grows f2 l1 l3.
Proof.
  intros Hf (a1 & -> & Hd1 & Hn1 & Hf1) (a2 & -> & Hd2 & Hn2 & Hf2).
  exists (a1 ++ a2). rewrite app_assoc. repeat split.
  - apply NoDup_app. repeat split; auto.
    intros x Hx1 Hx2. apply (Hn2 x Hx2). apply elem_of_app. auto.
  - intros x [Hx | Hx]%elem_of_app Hold.
    + apply (Hn1 x Hx Hold).
    + apply (Hn2 x Hx). apply elem_of_app. auto.
  - apply Forall_app. split; [ | assumption].
    eapply Forall_impl; eauto.
Qed.

Lemma grows_NoDup {A} (fresh : A -> Prop) (old new : list A) :
  grows fresh old new -> NoDup old -> NoDup new.
Proof.
  intros (added & -> & Hd & Hn & _) Hold. apply NoDup_app. repeat split; auto.
  intros x Hx Ha. apply (Hn x Ha Hx).
Qed.

Lemma plain_ext s s' p : ext s s' -> plain s p -> plain s' p.
Proof.
  intros He (o & Ho & Hs). destruct (ext_heap _ _ He p o Ho) as (o' & Ho' & Hd & _).
  exists o'. rewrite Hd. auto.
Qed.

Global Instance ext_refl : Reflexive ext.
Proof.
  intros s. constructor; auto using grows_refl.
  intros p o Ho. exists o. auto.
Qed.

Global Instance ext_trans : Transitive ext.
Proof.
  intros s1 s2 s3 H12 H23. constructor.
  - intros p o Ho.
    destruct (ext_heap _ _ H12 p o Ho) as (o2 & Ho2 & Hd2 & Hj2 & Hn2).
    destruct (ext_heap _ _ H23 p o2 Ho2) as (o3 & Ho3 & Hd3 & Hj3 & Hn3).
    exists o3. repeat split; congruence.
  - eapply grows_trans; [ | apply H12 | apply H23]. auto.
  - eapply (grows_trans (plain s2)); [ | apply H12 | apply H23].
    intros x. apply plain_ext, H23.
Qed.

Lemma wf_ext s s' : ext s s' -> wf s -> wf s'.
Proof.
  intros He [Hs Ho Hp]. constructor.
  - eapply grows_NoDup; [apply He | assumption].
  - eapply grows_NoDup; [apply He | assumption].
  - destruct (ext_objects _ _ He) as (a & -> & _ & _ & Hf).
    apply Forall_app. split; [ | assumption].
    eapply Forall_impl; [exact Hp | ]. intros x. apply plain_ext, He.
Qed.

Lemma wf_empty_store : wf empty_store.
Proof. constructor; simpl; auto using NoDup_nil_2. Qed.

(** *** The calls that write *)

Lemma newMarshalledObjectWithSize_ext j n d sz :
  respects ext (newMarshalledObjectWithSize j n d sz).
Proof.
  intros s s' [= <-]. constructor; simpl; auto using grows_refl.
  intros p o Ho. exists o. rewrite lookup_app_l; eauto using lookup_lt_Some.
Qed.

Lemma newMarshalledObject_ext j n d : respects ext (newMarshalledObject j n d).
Proof. apply newMarshalledObjectWithSize_ext. Qed.

Lemma setSize_ext p n : respects ext (setSize p n).
Proof.
  intros s s'. unfold setSize. destruct (heap s !! p) as [o | ] eqn:E.
  2: { intros [= <-]. reflexivity. }
  intros [= <-]. constructor; simpl; auto using grows_refl.
  intros q o' Ho'. destruct (decide (p = q)) as [-> | Hne].
  - eexists. rewrite list_lookup_insert_eq by eauto using lookup_lt_Some.
    split; [reflexivity | ]. simpl. assert (o' = o) as -> by congruence. auto.
  - exists o'. rewrite list_lookup_insert_ne by assumption. auto.
Qed.

Lemma cacheSymbols_ext symbols :
  (length symbols <= 1)%nat -> respects ext (cacheSymbols symbols).
Proof.
  intros Hlen s s'. unfold cacheSymbols.
  destruct symbols as [ | x [ | y l]]; simpl in *; [ | | lia].
  - intros [= <-]. reflexivity.
  - unfold bind, readSymbolCache, writeSymbolCache. simpl. intros [= <-].
    constructor; simpl; auto using grows_refl.
    + intros p o Ho. exists o. auto.
    + case_bool_decide as Hin.
      * apply grows_refl.
      * exists [x]. repeat split; auto using NoDup_singleton.
        intros z ->%list_elem_of_singleton Hz. apply Hin.
        apply elem_of_list_to_set. assumption.
Qed.

Lemma cacheObject_ext fuel obj object : respects ext (cacheObject fuel obj object).
Proof.
  intros s s'. unfold cacheObject, bind, load.
  destruct (heap s !! object) as [ob | ] eqn:Eob; simpl.
  2: { intros [= <-]. reflexivity. }
  destruct (first_is (data ob) is_sigil) eqn:Esig.
  { intros [= <-]. reflexivity. }
  pose proof (GetType_readonly fuel obj s) as Hro.
  destruct (GetType fuel obj s) as [t s1 | s1 | ]; simpl in *.
  3: discriminate.
  2: { intros [= <-]. rewrite (Hro s1 eq_refl). reflexivity. }
  rewrite <- (Hro s1 eq_refl).
  destruct (negb (registrable t)).
  { intros [= <-]. reflexivity. }
  unfold readObjectCache. case_bool_decide as Hin.
  { intros [= <-]. reflexivity. }
  intros [= <-]. constructor; simpl; auto using grows_refl.
  - intros p o Ho. exists o. auto.
  - exists [object]. repeat split; auto using NoDup_singleton.
    + intros z ->%list_elem_of_singleton. assumption.
    + constructor; [ | constructor]. exists ob. auto.
Qed.

#[export] Hint Resolve newMarshalledObjectWithSize_ext newMarshalledObject_ext
  setSize_ext cacheObject_ext : frame.
#[export] Hint Extern 1 (respects ext _) => (apply respects_eq; [typeclasses eauto | ]) : frame.

Lemma parseStringWithEncoding_cache d v sz cache :
  parseStringWithEncoding d = Some (v, sz, cache) -> (length cache <= 1)%nat.
Proof.
  unfold parseStringWithEncoding. intros Hp.
  destruct (parseString d) as [[value size0] | ]; simpl in Hp; [ | discriminate].
  destruct (add64 size0 1 <? len d); [ | injection Hp as <- <- <-; simpl; lia].
  destruct (index d (add64 size0 1)) as [c | ]; simpl in Hp; [ | discriminate].
  destruct (Byte.eqb c tag_symbol || Byte.eqb c tag_symlink);
    [ | injection Hp as <- <- <-; simpl; lia].
  match type of Hp with (?m ≫= _) = _ => destruct m as [[size1 cache1] | ] eqn:E1 end;
    simpl in Hp; [ | discriminate].
  assert (length cache1 <= 1)%nat as Hc.
  { destruct (Byte.eqb c tag_symlink).
    - destruct (slice_from d (add64 size0 2)); simpl in E1; [ | discriminate].
      destruct (parseInt s) as [[? ?] | ]; simpl in E1; [ | discriminate].
      injection E1 as <- <-. simpl. lia.
    - destruct (slice_from d (add64 size0 2)); simpl in E1; [ | discriminate].
      destruct (parseString s) as [[? ?] | ]; simpl in E1; [ | discriminate].
      injection E1 as <- <-. simpl. lia. }
  destruct (index d (add64 size1 1)); simpl in Hp; [ | discriminate].
  match type of Hp with (?m ≫= _) = _ => destruct m end; simpl in Hp; [ | discriminate].
  injection Hp as <- <- <-. assumption.
Qed.

#[export] Hint Extern 1 (respects ext (cacheSymbols [_])) =>
  (apply cacheSymbols_ext; simpl; lia) : frame.
#[export] Hint Extern 2 (respects ext (cacheSymbols _)) =>
  (apply cacheSymbols_ext; subst; eapply parseStringWithEncoding_cache; eassumption) : frame.

Lemma GetAsString_ext fuel : forall obj, respects ext (GetAsString fuel obj).
Proof. induction fuel as [| n IH]; intros obj; simpl; respects_auto. Qed.
#[export] Hint Resolve GetAsString_ext : frame.

Lemma ToString_ext `{Strconv} fuel obj : respects ext (ToString fuel obj).
Proof. unfold ToString. respects_auto. Qed.
#[export] Hint Resolve ToString_ext : frame.

Section ContainersExt.
Context `{Strconv}.

Lemma arrayLoop_ext getSize fuel obj :
  (forall p, respects ext (getSize p)) ->
  forall count offset value, respects ext (arrayLoop getSize fuel obj count offset value).
Proof.
  intros Hgs. induction count as [| c IH]; intros offset value; simpl; respects_auto.
Qed.

Lemma mapLoop_ext getSize fuel obj :
  (forall p, respects ext (getSize p)) ->
  forall count offset value, respects ext (mapLoop getSize fuel obj count offset value).
Proof.
  intros Hgs. induction count as [| c IH]; intros offset value; simpl; respects_auto.
Qed.

Lemma containers_ext fuel :
  (forall obj, respects ext (GetAsArray fuel obj)) /\
  (forall obj, respects ext (GetAsMap fuel obj)) /\
  (forall obj, respects ext (getSize fuel obj)).
Proof.
  induction fuel as [| n (IHa & IHm & IHs)].
  - split; [ | split]; intros obj; simpl; respects_auto.
  - split; [ | split]; intros obj; simpl; respects_auto;
      solve [apply arrayLoop_ext; assumption | apply mapLoop_ext; assumption].
Qed.

Lemma GetAsArray_ext fuel obj : respects ext (GetAsArray fuel obj).
Proof. apply containers_ext. Qed.

Lemma GetAsMap_ext fuel obj : respects ext (GetAsMap fuel obj).
Proof. apply containers_ext. Qed.

Lemma getSize_ext fuel obj : respects ext (getSize fuel obj).
Proof. apply containers_ext. Qed.
End ContainersExt.
#[export] Hint Resolve GetAsArray_ext GetAsMap_ext getSize_ext : frame.

(** * The varint decoder *)

Lemma bz_range b : 0 <= bz b < 256.
Proof. unfold bz. pose proof (Byte.to_N_bounded b). lia. Qed.

Lemma int64_small z : - 2 ^ 63 <= z < 2 ^ 63 -> int64 z = z.
Proof. intros Hz. unfold int64. rewrite Z.mod_small; lia. Qed.

Lemma lxor_ff b : Z.lxor 0xff (bz b) = 255 - bz b.
Proof. destruct b; reflexivity. Qed.

Lemma index_0 b rest sp : index (Slice (b :: rest) sp) 0 = Some b.
Proof. reflexivity. Qed.

Lemma index_S rest sp b (i : nat) :
  index (Slice (b :: rest) sp) (Z.of_nat (S i)) = rest !! i.
Proof.
  unfold index. destruct (0 <=? Z.of_nat (S i)) eqn:E; [ | apply Z.leb_gt in E; lia].
  rewrite Nat2Z.id. reflexivity.
Qed.

Lemma le_value_snoc bs x :
  le_value (bs ++ [x]) = le_value bs + x * 256 ^ Z.of_nat (length bs).
Proof.
  induction bs as [| y bs IH]; simpl.
  - lia.
  - rewrite IH. rewrite Nat2Z.inj_succ, Z.pow_succ_r by lia. lia.
Qed.

(** The counting loop assembles the little-endian value of the bytes it
    walks, as long as nothing overflows 63 bits. *)
Lemma assemble_le_value (f : Z -> Z) b rest sp :
  (forall x, 0 <= f (bz x) <= 255) ->
  forall (i : nat) (acc : Z),
    (i <= length rest)%nat -> 0 <= acc ->
    (acc + 1) * 256 ^ Z.of_nat i <= 2 ^ 63 ->
    assemble f (Slice (b :: rest) sp) i acc =
      Some (acc * 256 ^ Z.of_nat i + le_value ((fun x => f (bz x)) <$> take i rest)).
Proof.
  intros Hf. induction i as [| i IH]; intros acc Hi Hacc Hbound.
  - simpl. f_equal. lia.
  - cbn [assemble]. rewrite index_S.
    destruct (rest !! i) as [x | ] eqn:Ex.
    2: { apply lookup_ge_None in Ex. lia. }
    simpl. rewrite Nat2Z.inj_succ, Z.pow_succ_r in Hbound by lia.
    assert (0 < 256 ^ Z.of_nat i) as Hpow by (apply Z.pow_pos_nonneg; lia).
    pose proof (Hf x) as Hx.
    assert (acc * 256 + f (bz x) + 1 <= (acc + 1) * 256) as Hle by lia.
    assert ((acc * 256 + f (bz x) + 1) * 256 ^ Z.of_nat i <= 2 ^ 63) as Hb'.
    { etransitivity; [apply Z.mul_le_mono_nonneg_r; [lia | exact Hle] | lia]. }
    assert (acc * 256 + f (bz x) < 2 ^ 63) as Hlt by nia.
    unfold add64, shl64. rewrite Z.shiftl_mul_pow2 by lia.
    change (2 ^ 8) with 256.
    rewrite (int64_small (acc * 256)) by lia.
    rewrite int64_small by lia.
    rewrite IH by lia.
    rewrite (take_S_r _ _ _ Ex), fmap_app.
    change ((fun x0 : byte => f (bz x0)) <$> [x]) with [f (bz x)].
    rewrite le_value_snoc.
    rewrite length_fmap, length_take_le by lia.
    rewrite Nat2Z.inj_succ, Z.pow_succ_r by lia. simpl. f_equal. lia.
Qed.

Lemma le_value_bound bs :
  Forall (fun x => 0 <= x <= 255) bs -> 0 <= le_value bs < 256 ^ Z.of_nat (length bs).
Proof.
  induction 1 as [| x bs Hx _ IH]; simpl.
  - lia.
  - rewrite Nat2Z.inj_succ, Z.pow_succ_r by lia. fold (le_value bs). lia.
Qed.

Lemma pow256_le (i : nat) : (i <= 5)%nat -> 256 ^ Z.of_nat i <= 2 ^ 40.
Proof.
  intros Hi. change (2 ^ 40) with (256 ^ 5). apply Z.pow_le_mono_r; lia.
Qed.

(** First byte at most 5: that many payload bytes, least significant first. *)
Lemma parseInt_counted b rest sp :
  bz b <= 5 -> (Z.to_nat (bz b) <= length rest)%nat ->
  parseInt (Slice (b :: rest) sp) =
    Some (le_value (bz <$> take (Z.to_nat (bz b)) rest), bz b + 1).
Proof.
  intros Hb Hlen. pose proof (bz_range b) as Hr.
  unfold parseInt. rewrite index_0. simpl.
  destruct (Z.ltb_spec 5 (bz b)); [lia | ]. simpl.
  destruct (Z.leb_spec (bz b) 5); [ | lia].
  rewrite (assemble_le_value (fun x => x)); try lia.
  - simpl. unfold add8, uint8. rewrite Z.mod_small by lia. reflexivity.
  - intros x. pose proof (bz_range x). lia.
  - pose proof (pow256_le (Z.to_nat (bz b))). lia.
Qed.

(** First byte at least 0xFB: [256 - b] payload bytes, complemented. *)
Lemma parseInt_counted_neg b rest sp :
  0xfb <= bz b -> (Z.to_nat (256 - bz b) <= length rest)%nat ->
  parseInt (Slice (b :: rest) sp) =
    Some (- (le_value ((fun x => 0xff - bz x) <$> take (Z.to_nat (256 - bz b)) rest) + 1),
          256 - bz b + 1).
Proof.
  intros Hb Hlen. pose proof (bz_range b) as Hr.
  unfold parseInt. rewrite index_0. simpl.
  destruct (Z.ltb_spec 5 (bz b)); [ | lia].
  destruct (Z.ltb_spec (bz b) 251); [lia | ]. simpl.
  destruct (Z.leb_spec (bz b) 5); [lia | ].
  assert (add8 (sub8 255 (bz b)) 1 = 256 - bz b) as ->.
  { unfold add8, sub8, uint8. rewrite (Z.mod_small (255 - bz b)) by lia.
    rewrite Z.mod_small; lia. }
  assert (add8 (sub8 255 (bz b)) 2 = 256 - bz b + 1) as ->.
  { unfold add8, sub8, uint8. rewrite (Z.mod_small (255 - bz b)) by lia.
    rewrite Z.mod_small; lia. }
  assert (forall x, sub64 255 (bz x) = 255 - bz x) as Hsub.
  { intros x. pose proof (bz_range x). unfold sub64. apply int64_small. lia. }
  rewrite (assemble_le_value (fun x => sub64 255 x)); try lia.
  - simpl. rewrite Z.mul_0_l, Z.add_0_l.
    rewrite (list_fmap_ext _ (fun x => 255 - bz x) _ (fun _ x _ => Hsub x)).
    set (l := (fun x => 255 - bz x) <$> take (Z.to_nat (256 - bz b)) rest).
    assert (0 <= le_value l < 2 ^ 40) as Hv.
    { pose proof (le_value_bound l) as Hlb.
      assert (Forall (fun x => 0 <= x <= 255) l) as Hall.
      { subst l. apply Forall_fmap, Forall_forall. intros x _. simpl.
        pose proof (bz_range x). lia. }
      specialize (Hlb Hall).
      assert (length l = Z.to_nat (256 - bz b)) as Hll.
      { subst l. rewrite length_fmap, length_take_le; lia. }
      rewrite Hll in Hlb. pose proof (pow256_le (Z.to_nat (256 - bz b))). lia. }
    unfold neg64, add64. rewrite (int64_small (le_value l + 1)) by lia.
    rewrite int64_small by lia. reflexivity.
  - intros x. rewrite Hsub. pose proof (bz_range x). lia.
  - pose proof (pow256_le (Z.to_nat (256 - bz b))). lia.
Qed.

(** C2, counterexample: the first bytes 5 and 0xFB are not inline values.
    On [05 01 00 00 00 00] the decoder returns 1 with length 6 (not
    5 - 5 = 0 with length 1), on [FB FE FF FF FF FF] it returns -2 with
    length 6, and on the one-byte buffer [05] it panics. *)
Lemma parseInt_inline_fails_at_5_and_fb :
  let d5 := buf [x05; x01; x00; x00; x00; x00] in
  let dfb := buf [xfb; xfe; xff; xff; xff; xff] in
  (index d5 0 = Some x05 /\ 5 <= bz x05 <= 0x7f /\
   parseInt d5 = Some (1, 6) /\ parseInt d5 <> Some (bz x05 - 5, 1)) /\
  (index dfb 0 = Some xfb /\ 0x80 <= bz xfb <= 0xfb /\
   parseInt dfb = Some (-2, 6) /\
   parseInt dfb <> Some (- (Z.lxor (bz xfb) 0xff + 1) + 5, 1)) /\
  parseInt (buf [x05]) = None.
Proof. vm_compute. repeat split; congruence. Qed.

(** C2 (amended): for every buffer whose first byte b satisfies
    6 <= b <= 0x7F the varint decoder returns b - 5 with length 1, and for
    0x80 <= b <= 0xFA it returns -((b XOR 0xFF) + 1) + 5 with length 1; the
    first bytes 5 and 0xFB are not inline values but announce five payload
    bytes (length 6). *)
Theorem parseInt_inline (b : byte) (rest sp : list byte) :
  let data := Slice (b :: rest) sp in
  (6 <= bz b <= 0x7f -> parseInt data = Some (bz b - 5, 1)) /\
  (0x80 <= bz b <= 0xfa ->
   parseInt data = Some (- (Z.lxor (bz b) 0xff + 1) + 5, 1)) /\
  (bz b = 5 -> (5 <= length rest)%nat ->
   parseInt data = Some (le_value (bz <$> take 5 rest), 6)) /\
  (bz b = 0xfb -> (5 <= length rest)%nat ->
   parseInt data = Some (- (le_value ((fun x => 0xff - bz x) <$> take 5 rest) + 1), 6)).
Proof.
  pose proof (bz_range b) as Hr. cbv zeta. repeat split.
  - intros Hb. unfold parseInt. rewrite index_0. simpl.
    destruct (Z.ltb_spec 5 (bz b)); [ | lia].
    destruct (Z.ltb_spec (bz b) 251); [ | lia]. simpl.
    destruct (Z.ltb_spec 127 (bz b)); [lia | ].
    unfold sub64. rewrite int64_small by lia. reflexivity.
  - intros Hb. rewrite Z.lxor_comm, lxor_ff.
    unfold parseInt. rewrite index_0. cbn [mbind option_bind]. cbv zeta.
    rewrite lxor_ff.
    destruct (Z.ltb_spec 5 (bz b)); [ | lia].
    destruct (Z.ltb_spec (bz b) 251); [ | lia]. cbn [andb].
    destruct (Z.ltb_spec 127 (bz b)); [ | lia].
    unfold add64, neg64. rewrite (int64_small (255 - bz b + 1)) by lia.
    rewrite (int64_small (- _)) by lia. rewrite int64_small by lia. reflexivity.
  - intros Hb Hlen. rewrite parseInt_counted by (rewrite ?Hb; simpl; lia).
    rewrite Hb. reflexivity.
  - intros Hb Hlen. rewrite parseInt_counted_neg by (rewrite ?Hb; simpl; lia).
    rewrite Hb. reflexivity.
Qed.

Lemma parseInt_inline_witness :
  parseInt (buf [x2f]) = Some (42, 1) /\
  parseInt (buf [xfa]) = Some (-1, 1) /\
  parseInt (buf [x05; x01; x00; x00; x00; x00]) = Some (1, 6) /\
  parseInt (buf [xfb; xfe; xff; xff; xff; xff]) = Some (-2, 6).
Proof.
  split; [ | split; [ | split]].
  - destruct (parseInt_inline x2f [] []) as (Hpos & _ & _ & _).
    apply Hpos. change (bz x2f) with 47. lia.
  - destruct (parseInt_inline xfa [] []) as (_ & Hneg & _ & _).
    apply Hneg. change (bz xfa) with 250. lia.
  - destruct (parseInt_inline x05 [x01; x00; x00; x00; x00] []) as (_ & _ & H5 & _).
    apply H5; [reflexivity | simpl; lia].
  - destruct (parseInt_inline xfb [xfe; xff; xff; xff; xff] []) as (_ & _ & _ & Hfb).
    apply Hfb; [reflexivity | simpl; lia].
Defined.

(** C3: for every buffer whose first byte b is 0 the varint decoder
    returns 0 with length 1; for 1 <= b <= 4 it returns the positive
    integer assembled from the next b bytes in little-endian order, with
    length b + 1; for 0xFC <= b <= 0xFF, with n = 256 - b, it returns
    -(accumulator + 1), the accumulator assembled in little-endian order
    from 0xFF minus each of the next n bytes, with length n + 1.  (The
    next b, or n, bytes are bytes of the buffer.) *)
Theorem parseInt_counted_payload (b : byte) (rest sp : list byte) :
  let data := Slice (b :: rest) sp in
  (bz b = 0 -> parseInt data = Some (0, 1)) /\
  (1 <= bz b <= 4 -> (Z.to_nat (bz b) <= length rest)%nat ->
   parseInt data = Some (le_value (bz <$> take (Z.to_nat (bz b)) rest), bz b + 1)) /\
  (0xfc <= bz b <= 0xff ->
   let n := 256 - bz b in
   (Z.to_nat n <= length rest)%nat ->
   parseInt data =
     Some (- (le_value ((fun x => 0xff - bz x) <$> take (Z.to_nat n) rest) + 1), n + 1)).
Proof.
  cbv zeta. repeat split.
  - intros Hb. rewrite parseInt_counted by (rewrite ?Hb; simpl; lia).
    rewrite Hb. reflexivity.
  - intros Hb Hlen. apply parseInt_counted; [lia | assumption].
  - intros Hb Hlen. apply parseInt_counted_neg; [lia | assumption].
Qed.

Lemma parseInt_counted_payload_witness :
  parseInt (buf [x00]) = Some (0, 1) /\
  parseInt (buf [x02; x01; x01]) = Some (257, 3) /\
  parseInt (buf [xfe; x00; xff]) = Some (-256, 3).
Proof.
  split; [ | split].
  - destruct (parseInt_counted_payload x00 [] []) as (H0 & _ & _).
    apply H0. reflexivity.
  - destruct (parseInt_counted_payload x02 [x01; x01] []) as (_ & Hpos & _).
    apply Hpos.
    + change (bz x02) with 2. lia.
    + change (bz x02) with 2. simpl. lia.
  - destruct (parseInt_counted_payload xfe [x00; xff] []) as (_ & _ & Hneg).
    apply Hneg.
    + change (bz xfe) with 254. lia.
    + change (bz xfe) with 254. simpl. lia.
Defined.

(** * The entry point *)

(** C9: [CreateMarshalledObject] reads [serializedData[0]] and
    [serializedData[1]] and slices [serializedData[2:]] unconditionally: on
    every input of length 0 or 1 the call panics instead of returning. *)
Theorem CreateMarshalledObject_short_input (serializedData : slice) :
  len serializedData < 2 ->
  CreateMarshalledObject serializedData = Panic empty_store.
Proof.
  destruct serializedData as [[| a [| b l]] sp]; unfold len; simpl; intros Hlen.
  - reflexivity.
  - reflexivity.
  - lia.
Qed.

Lemma CreateMarshalledObject_short_input_witness :
  CreateMarshalledObject (buf []) = Panic empty_store /\
  CreateMarshalledObject (buf [x04]) = Panic empty_store.
Proof.
  split; apply CreateMarshalledObject_short_input; unfold len; simpl; lia.
Defined.

(** With the two version bytes present the call returns the root, in a
    store that holds only it and two empty tables. *)
Lemma CreateMarshalledObject_root (a b : byte) (l sp : list byte) :
  CreateMarshalledObject (Slice (a :: b :: l) sp) =
    Ret 0%nat (Store [Node a b (Slice l sp) (len (Slice l sp))] [] []).
Proof.
  unfold CreateMarshalledObject, bind, slice_from.
  rewrite index_0. change (a :: b :: l) with ([a] ++ b :: l) at 1.
  change (index _ 1) with (Some b). cbn [lift ret].
  destruct (Z.leb_spec 2 (len (Slice (a :: b :: l) sp))) as [_ | Hlt].
  - reflexivity.
  - unfold len in Hlt. simpl in Hlt. lia.
Qed.

(** * Scenario 6: a decorated string *)

(** C7: on the input [04 08 49 22 07 68 69 06 3A 06 45 54] the root is a
    String-kind node, [GetAsString] returns the text hi, and the size
    computed for the node is the input length minus the two version bytes,
    10 (before as well as after the string was read). *)
Theorem decorated_string_hi `{Strconv} :
  CreateMarshalledObject hi_input = Ret 0%nat hi_store /\
  GetType 1 0%nat hi_store = Ret TYPE_STRING hi_store /\
  value_of (GetAsString 2 0%nat hi_store) = Some ("hi"%string, None) /\
  value_of (getSize 2 0%nat hi_store) = Some (len hi_input - 2) /\
  value_of ((GetAsString 2 0%nat;; getSize 2 0%nat) hi_store) = Some (len hi_input - 2) /\
  len hi_input - 2 = 10.
Proof. repeat split; vm_compute; reflexivity. Qed.

(** * Accessors that only read *)

(** C10: [GetType], [GetAsBool], [GetAsInteger] and [GetAsFloat] never
    modify the symbol table or the object table: the store in which any of
    them ends, by returning or by panicking, is the store it started in. *)
Theorem readers_leave_tables `{Strconv} (fuel : nat) (obj : ptr) (s s' : State) :
  final (GetType fuel obj s) = Some s' \/
  final (GetAsBool fuel obj s) = Some s' \/
  final (GetAsInteger fuel obj s) = Some s' \/
  final (GetAsFloat fuel obj s) = Some s' ->
  s' = s /\ symbolCache s' = symbolCache s /\ objectCache s' = objectCache s.
Proof.
  intros Hcall. assert (s = s') as <-; [ | auto].
  destruct Hcall as [Hc | [Hc | [Hc | Hc]]].
  - exact (GetType_readonly fuel obj s s' Hc).
  - exact (GetAsBool_readonly fuel obj s s' Hc).
  - exact (GetAsInteger_readonly fuel obj s s' Hc).
  - exact (GetAsFloat_readonly fuel obj s s' Hc).
Qed.

Lemma readers_leave_tables_witness :
  let s := Store [Node x04 x08 (buf [x69; x2f]) 2] [] [] in
  value_of (GetAsInteger 1 0%nat s) = Some (42, None) /\
  final (GetAsInteger 1 0%nat s) = Some s /\
  symbolCache s = [] /\ objectCache s = [].
Proof.
  intros s.
  destruct (readers_leave_tables (H := literal_strconv) 1 0%nat s s) as (_ & Hsym & Hobj).
  - right. right. left. reflexivity.
  - split; [reflexivity | ]. split; [reflexivity | ]. split; assumption.
Defined.

(** X17: [ToString] writes only through its call of [GetAsString]: the
    store in which it ends, by returning or by panicking, is the store it
    started in or the store in which [GetAsString] on the same node ends. *)
Lemma ToString_writes_through_GetAsString `{Strconv} fuel obj s s' :
  final (ToString fuel obj s) = Some s' ->
  s' = s \/ final (GetAsString fuel obj s) = Some s'.
Proof.
  unfold ToString, bind. pose proof (GetType_readonly fuel obj s) as Hk.
  destruct (GetType fuel obj s) as [t s1 | s1 | ]; simpl in *; [ | | discriminate].
  2: { intros [= <-]. left. symmetry. auto. }
  rewrite <- (Hk s1 eq_refl). clear Hk.
  destruct t; try (intros [= <-]; left; reflexivity).
  - pose proof (GetAsBool_readonly fuel obj s) as Hr.
    destruct (GetAsBool fuel obj s) as [[v e] s2 | s2 | ]; simpl in *;
      intros [= <-]; left; symmetry; auto.
  - pose proof (GetAsInteger_readonly fuel obj s) as Hr.
    destruct (GetAsInteger fuel obj s) as [[v e] s2 | s2 | ]; simpl in *;
      intros [= <-]; left; symmetry; auto.
  - pose proof (GetAsFloat_readonly fuel obj s) as Hr.
    destruct (GetAsFloat fuel obj s) as [[v e] s2 | s2 | ]; simpl in *;
      intros [= <-]; left; symmetry; auto.
  - destruct (GetAsString fuel obj s) as [[v e] s2 | s2 | ]; simpl in *;
      intros [= <-]; right; reflexivity.
Qed.

(** * Kinds and links *)

Lemma resolveObjectLink_eq obj s :
  resolveObjectLink obj s =
    match heap s !! obj with
    | None => Panic s
    | Some o => match link_target s o with Some r => Ret r s | None => Panic s end
    end.
Proof.
  unfold resolveObjectLink, link_target, bind, load.
  destruct (heap s !! obj) as [o | ]; [ | reflexivity].
  destruct (first_is (data o) is_link); [ | reflexivity].
  destruct (slice_from (data o) 1) as [d | ]; [ | reflexivity]. simpl.
  destruct (parseInt d) as [[idx n] | ]; [ | reflexivity]. simpl.
  unfold readObjectCache.
  destruct (idx <? Z.of_nat (length (objectCache s))); [ | reflexivity].
  destruct (at_index (objectCache s) idx); reflexivity.
Qed.

Lemma link_target_empty s o : len (data o) = 0 -> link_target s o = Some None.
Proof.
  intros Hlen. unfold link_target, first_is. rewrite Hlen. reflexivity.
Qed.

Lemma GetType_unfold n obj s :
  GetType (S n) obj s =
    match heap s !! obj with
    | None => Panic s
    | Some o =>
        if len (data o) =? 0 then Ret TYPE_UNKNOWN s
        else match link_target s o with
             | None => Panic s
             | Some (Some r) => GetType n r s
             | Some None =>
                 match index (data o) 0 with
                 | Some b => Ret (type_of_tag (data o) b) s
                 | None => Panic s
                 end
             end
    end.
Proof.
  cbn [GetType]. unfold bind at 1. unfold load.
  destruct (heap s !! obj) as [o | ] eqn:Eo; [ | reflexivity].
  destruct (len (data o) =? 0); [reflexivity | ].
  unfold bind at 1. rewrite resolveObjectLink_eq, Eo.
  destruct (link_target s o) as [[r | ] | ]; try reflexivity.
  unfold bind, lift. destruct (index (data o) 0); reflexivity.
Qed.

(** More fuel does not change what [GetType] answers. *)
Lemma GetType_fuel n : forall obj s k s',
  GetType n obj s = Ret k s' -> GetType (S n) obj s = Ret k s'.
Proof.
  induction n as [| n IH]; intros obj s k s' Hk; [discriminate | ].
  rewrite GetType_unfold in Hk. rewrite GetType_unfold.
  destruct (heap s !! obj) as [o | ]; [ | discriminate].
  destruct (len (data o) =? 0); [exact Hk | ].
  destruct (link_target s o) as [[r | ] | ]; [ | exact Hk | discriminate].
  apply IH, Hk.
Qed.

(** A call that resolved the kind of a node found the node, and found its
    link, if it has one. *)
Lemma GetType_Ret_inv n obj s k s' :
  GetType (S n) obj s = Ret k s' ->
  exists o, heap s !! obj = Some o /\
    ((len (data o) = 0 /\ link_target s o = Some None) \/
     (exists r, link_target s o = Some (Some r) /\ GetType n r s = Ret k s') \/
     (link_target s o = Some None)).
Proof.
  rewrite GetType_unfold. destruct (heap s !! obj) as [o | ]; [ | discriminate].
  intros Hk. exists o. split; [reflexivity | ].
  destruct (len (data o) =? 0) eqn:El.
  - left. apply Z.eqb_eq in El. auto using link_target_empty.
  - destruct (link_target s o) as [[r | ] | ]; [ | | discriminate].
    + right. left. eauto.
    + right. right. reflexivity.
Qed.

Lemma assertType_mismatch n obj s k t :
  GetType n obj s = Ret k s -> k <> t ->
  assertType n obj t s = Ret (Some TypeMismatch) s.
Proof.
  intros Hk Hne. unfold assertType, bind. rewrite Hk.
  destruct (decide (k = t)); [contradiction | reflexivity].
Qed.

Lemma GetAsString_mismatch n : forall obj s k,
  GetType n obj s = Ret k s -> k <> TYPE_STRING ->
  GetAsString (S n) obj s = Ret (EmptyString, Some TypeMismatch) s.
Proof.
  induction n as [| n IH]; intros obj s k Hk Hne; [discriminate | ].
  destruct (GetType_Ret_inv _ _ _ _ _ Hk) as (o & Ho & Hcase).
  cbn [GetAsString]. unfold bind at 1. rewrite resolveObjectLink_eq, Ho.
  destruct Hcase as [[_ Hl] | [(r & Hl & Hr) | Hl]]; rewrite Hl.
  - unfold bind at 1. rewrite (assertType_mismatch _ _ _ _ _ Hk Hne). reflexivity.
  - apply (IH r s k Hr Hne).
  - unfold bind at 1. rewrite (assertType_mismatch _ _ _ _ _ Hk Hne). reflexivity.
Qed.

Section ContainerMismatch.
Context `{Strconv}.

Lemma GetAsArray_mismatch n : forall obj s k,
  GetType n obj s = Ret k s -> k <> TYPE_ARRAY ->
  GetAsArray (S n) obj s = Ret ([], Some TypeMismatch) s.
Proof.
  induction n as [| n IH]; intros obj s k Hk Hne; [discriminate | ].
  destruct (GetType_Ret_inv _ _ _ _ _ Hk) as (o & Ho & Hcase).
  cbn [GetAsArray]. unfold bind at 1. rewrite resolveObjectLink_eq, Ho.
  destruct Hcase as [[_ Hl] | [(r & Hl & Hr) | Hl]]; rewrite Hl.
  - unfold bind at 1. rewrite (assertType_mismatch _ _ _ _ _ Hk Hne). reflexivity.
  - apply (IH r s k Hr Hne).
  - unfold bind at 1. rewrite (assertType_mismatch _ _ _ _ _ Hk Hne). reflexivity.
Qed.

Lemma GetAsMap_mismatch n : forall obj s k,
  GetType n obj s = Ret k s -> k <> TYPE_MAP ->
  GetAsMap (S n) obj s = Ret (∅, Some TypeMismatch) s.
Proof.
  induction n as [| n IH]; intros obj s k Hk Hne; [discriminate | ].
  destruct (GetType_Ret_inv _ _ _ _ _ Hk) as (o & Ho & Hcase).
  cbn [GetAsMap]. unfold bind at 1. rewrite resolveObjectLink_eq, Ho.
  destruct Hcase as [[_ Hl] | [(r & Hl & Hr) | Hl]]; rewrite Hl.
  - unfold bind at 1. rewrite (assertType_mismatch _ _ _ _ _ Hk Hne). reflexivity.
  - apply (IH r s k Hr Hne).
  - unfold bind at 1. rewrite (assertType_mismatch _ _ _ _ _ Hk Hne). reflexivity.
Qed.
End ContainerMismatch.

(** C5: a typed accessor called on a node whose kind is not the kind the
    accessor expects returns [TypeMismatch] and leaves the store as it was:
    the fields of every node and both shared tables. *)
Theorem mismatch_leaves_store `{Strconv} (n : nat) (obj : ptr) (s : State)
    (k : marshalledObjectType) :
  GetType n obj s = Ret k s ->
  (k <> TYPE_BOOL -> GetAsBool n obj s = Ret (false, Some TypeMismatch) s) /\
  (k <> TYPE_INTEGER -> GetAsInteger n obj s = Ret (0, Some TypeMismatch) s) /\
  (k <> TYPE_FLOAT -> GetAsFloat n obj s = Ret (float64_zero, Some TypeMismatch) s) /\
  (k <> TYPE_STRING -> GetAsString (S n) obj s = Ret (EmptyString, Some TypeMismatch) s) /\
  (k <> TYPE_ARRAY -> GetAsArray (S n) obj s = Ret ([], Some TypeMismatch) s) /\
  (k <> TYPE_MAP -> GetAsMap (S n) obj s = Ret (∅, Some TypeMismatch) s).
Proof.
  intros Hk. repeat split; intros Hne.
  - unfold GetAsBool, bind. rewrite (assertType_mismatch _ _ _ _ _ Hk Hne). reflexivity.
  - unfold GetAsInteger, bind. rewrite (assertType_mismatch _ _ _ _ _ Hk Hne). reflexivity.
  - unfold GetAsFloat, bind. rewrite (assertType_mismatch _ _ _ _ _ Hk Hne). reflexivity.
  - eapply GetAsString_mismatch; eassumption.
  - eapply GetAsArray_mismatch; eassumption.
  - eapply GetAsMap_mismatch; eassumption.
Qed.

Lemma mismatch_leaves_store_witness :
  let s := Store [Node x04 x08 (buf [x30]) 1] [] [] in
  GetType 1 0%nat s = Ret TYPE_NIL s /\
  GetAsBool 1 0%nat s = Ret (false, Some TypeMismatch) s /\
  GetAsString 2 0%nat s = Ret (EmptyString, Some TypeMismatch) s /\
  GetAsArray (H := literal_strconv) 2 0%nat s = Ret ([], Some TypeMismatch) s.
Proof.
  intros s.
  destruct (mismatch_leaves_store (H := literal_strconv) 1 0%nat s TYPE_NIL eq_refl)
    as (Hb & _ & _ & Hs & Ha & _).
  split; [reflexivity | ].
  split; [apply Hb; discriminate | ].
  split; [apply Hs; discriminate | apply Ha; discriminate].
Defined.

(** * Sequences of calls *)

Lemma perform_ext `{Strconv} fuel c : respects ext (perform fuel c).
Proof. destruct c; unfold perform; respects_auto. Qed.

Lemma calls_ext `{Strconv} s s' : calls s s' -> ext s s'.
Proof.
  induction 1 as [s | s s1 s2 fuel c _ IH Hc].
  - reflexivity.
  - etransitivity; [exact IH | ]. exact (perform_ext fuel c s1 s2 Hc).
Qed.

Lemma CreateMarshalledObject_inv input root s0 :
  CreateMarshalledObject input = Ret root s0 ->
  root = 0%nat /\ exists a b d, s0 = Store [Node a b d (len d)] [] [].
Proof.
  unfold CreateMarshalledObject, bind.
  destruct (index input 0) as [a | ]; [ | discriminate].
  destruct (index input 1) as [b | ]; [ | discriminate].
  destruct (slice_from input 2) as [d | ]; [ | discriminate].
  intros [= <- <-]. split; [reflexivity | ]. exists a, b, d. reflexivity.
Qed.

Lemma reachable_wf `{Strconv} input s : reachable input s -> wf s.
Proof.
  intros (root & s0 & Hc & Hs). apply (wf_ext s0); [apply calls_ext, Hs | ].
  destruct (CreateMarshalledObject_inv _ _ _ Hc) as (_ & a & b & d & ->).
  constructor; simpl; auto using NoDup_nil_2.
Qed.

(** * The symbol table *)

(** C8: the symbol table is append-only and duplicate-free: whatever is
    called on whatever node, the table afterwards is the table before
    followed by distinct strings that it did not hold, so that no entry is
    removed, replaced or moved and no string comes to be held twice. *)
Theorem symbol_table_append_only `{Strconv} (fuel : nat) (c : call) (s s' : State) :
  final (perform fuel c s) = Some s' ->
  (exists added,
     symbolCache s' = symbolCache s ++ added /\
     NoDup added /\ (forall x, x ∈ added -> x ∉ symbolCache s)) /\
  (NoDup (symbolCache s) -> NoDup (symbolCache s')).
Proof.
  intros Hc. pose proof (perform_ext fuel c s s' Hc) as He.
  split.
  - destruct (ext_symbols _ _ He) as (added & E & Hd & Hn & _). eauto.
  - apply (grows_NoDup _ _ _ (ext_symbols _ _ He)).
Qed.

Lemma symbol_table_append_only_witness :
  exists s', final (perform (H := literal_strconv) 2 (CallGetAsString 0%nat) hi_store) = Some s' /\
    symbolCache s' = ["E"%string] /\ NoDup (symbolCache s').
Proof.
  eexists. split; [reflexivity | ].
  split; [reflexivity | ].
  refine (proj2 (symbol_table_append_only (H := literal_strconv) 2 (CallGetAsString 0%nat)
                   hi_store _ eq_refl) _).
  apply NoDup_nil_2.
Defined.

(** Every store reachable from a decoded input has a duplicate-free
    symbol table. *)
Lemma reachable_symbols_NoDup `{Strconv} input s :
  reachable input s -> NoDup (symbolCache s).
Proof. intros Hr. apply (wf_symbols _ (reachable_wf _ _ Hr)). Qed.

(** * The object table *)

(** X8: what every call keeps: the object table afterwards is the table
    before followed by distinct handles that it did not hold, each of a
    node whose data does not start with ['@'], [':'] or [';']. *)
Lemma object_table_growth `{Strconv} (fuel : nat) (c : call) (s s' : State) :
  final (perform fuel c s) = Some s' ->
  exists added,
    objectCache s' = objectCache s ++ added /\
    NoDup added /\ (forall p, p ∈ added -> p ∉ objectCache s) /\
    Forall (plain s') added.
Proof. intros Hc. exact (ext_objects _ _ (perform_ext fuel c s s' Hc)). Qed.

(** C4, the code at the failing input [04 08 5B 06 69 06], the array [[1]]:
    [GetAsArray] on the root returns the handle of the element and leaves
    it in the object table, although its kind is Integer.  [cacheObject]
    tests the kind of its receiver (the array) where the claim has the
    kind of the node that is appended. *)
Theorem object_table_registers_integer `{Strconv} :
  CreateMarshalledObject int_array_input = Ret 0%nat int_array_store /\
  exists s1,
    GetAsArray 3 0%nat int_array_store = Ret ([2%nat], None) s1 /\
    objectCache s1 = [0%nat; 2%nat] /\
    GetType 1 2%nat s1 = Ret TYPE_INTEGER s1.
Proof.
  split; [reflexivity | ].
  exists (Store [Node x04 x08 (buf [x5b; x06; x69; x06]) 4;
                 Node x04 x08 (buf [x69; x06]) 0;
                 Node x04 x08 (buf [x69; x06]) 2] [] [0%nat; 2%nat]).
  repeat split; vm_compute; reflexivity.
Qed.

(** * Stability of kinds *)

(** C6, counterexample: on [04 08 5B 07 40 07 30], an array of the link
    [@2] and nil, the first element handle that [GetAsArray] returns has
    kind Unknown (the object table holds two entries); after a second
    [GetAsArray] on the root, which appends the handle of a new nil
    element, the same handle has kind Nil. *)
Lemma kind_of_dangling_link_changes :
  match CreateMarshalledObject dangling_input with
  | Ret root s0 =>
      match GetAsArray (H := literal_strconv) 3 root s0 with
      | Ret ([v0; _], None) s1 =>
          GetType 2 v0 s1 = Ret TYPE_UNKNOWN s1 /\
          match GetAsArray (H := literal_strconv) 3 root s1 with
          | Ret _ s2 => GetType 2 v0 s2 = Ret TYPE_NIL s2
          | _ => False
          end
      | _ => False
      end
  | _ => False
  end.
Proof. vm_compute. split; reflexivity. Qed.

Lemma first_is_sigil_link d :
  first_is d is_sigil = false -> first_is d is_link = false.
Proof.
  unfold first_is, is_sigil. destruct (0 <? len d); [ | reflexivity]. simpl.
  destruct (index d 0) as [b | ]; [ | reflexivity].
  destruct (is_link b); [discriminate | reflexivity].
Qed.

Lemma at_index_app {A} (c added : list A) i r :
  at_index c i = Some r -> at_index (c ++ added) i = Some r.
Proof.
  unfold at_index. destruct (0 <=? i); [ | discriminate].
  intros Hr. rewrite lookup_app_l; eauto using lookup_lt_Some.
Qed.

Lemma at_index_elem {A} (c : list A) i r : at_index c i = Some r -> r ∈ c.
Proof.
  unfold at_index. destruct (0 <=? i); [ | discriminate].
  intros Hr. apply list_elem_of_lookup. eauto.
Qed.

Lemma link_target_plain s o :
  first_is (data o) is_link = false -> link_target s o = Some None.
Proof. intros Hf. unfold link_target. rewrite Hf. reflexivity. Qed.

(** A resolved link stays resolved, to the same node, when the object
    table grows. *)
Lemma link_target_grows s s' o o' r :
  data o' = data o ->
  (exists added, objectCache s' = objectCache s ++ added) ->
  link_target s o = Some (Some r) -> link_target s' o' = Some (Some r).
Proof.
  intros Hd (added & Hc). unfold link_target. rewrite Hd, Hc.
  destruct (first_is (data o) is_link); [ | discriminate].
  destruct (slice_from (data o) 1) as [d | ]; [ | discriminate]. simpl.
  destruct (parseInt d) as [[idx n] | ]; [ | discriminate]. simpl.
  destruct (Z.ltb_spec idx (Z.of_nat (length (objectCache s)))) as [Hlt | ];
    [ | discriminate].
  destruct (at_index (objectCache s) idx) as [r' | ] eqn:Er; [ | discriminate].
  simpl. intros [= <-].
  destruct (Z.ltb_spec idx (Z.of_nat (length (objectCache s ++ added)))) as [ | Hge].
  - rewrite (at_index_app _ _ _ _ Er). reflexivity.
  - rewrite length_app in Hge. lia.
Qed.

Lemma GetType_stable s1 s2 :
  wf s1 -> ext s1 s2 ->
  forall n p k,
    unresolved_link s1 p = false ->
    GetType n p s1 = Ret k s1 -> GetType n p s2 = Ret k s2.
Proof.
  intros Hwf He. induction n as [| n IH]; intros p k Hun Hk; [discriminate | ].
  rewrite GetType_unfold in Hk. rewrite GetType_unfold.
  unfold unresolved_link in Hun.
  destruct (heap s1 !! p) as [o | ] eqn:Eo; [ | discriminate].
  destruct (ext_heap _ _ He p o Eo) as (o' & Eo' & Hd & _).
  rewrite Eo', Hd.
  destruct (len (data o) =? 0); [injection Hk as <-; reflexivity | ].
  destruct (first_is (data o) is_link) eqn:Ef.
  - simpl in Hun.
    destruct (link_target s1 o) as [[r | ] | ] eqn:El; try discriminate.
    assert (exists added, objectCache s2 = objectCache s1 ++ added) as Hgrow.
    { destruct (ext_objects _ _ He) as (added & E & _). eauto. }
    rewrite (link_target_grows s1 s2 o o' r Hd Hgrow El).
    apply IH; [ | exact Hk].
    assert (r ∈ objectCache s1) as Hin.
    { revert El. unfold link_target. rewrite Ef.
      destruct (slice_from (data o) 1) as [d | ]; [ | discriminate]. simpl.
      destruct (parseInt d) as [[idx m] | ]; [ | discriminate]. simpl.
      destruct (idx <? Z.of_nat (length (objectCache s1))); [ | discriminate].
      destruct (at_index (objectCache s1) idx) as [r' | ] eqn:Er; [ | discriminate].
      simpl. intros [= <-]. eapply at_index_elem, Er. }
    destruct (proj1 (Forall_forall _ _) (wf_plain _ Hwf) r Hin) as (ro & Hro & Hsig).
    unfold unresolved_link. rewrite Hro, (first_is_sigil_link _ Hsig). reflexivity.
  - rewrite (link_target_plain s1 o Ef) in Hk.
    assert (first_is (data o') is_link = false) as Ef' by (rewrite Hd; exact Ef).
    rewrite (link_target_plain s2 o' Ef').
    destruct (index (data o) 0); [ | discriminate].
    injection Hk as <-. reflexivity.
Qed.

(** C6 (amended): for every node of a store reached from a decoded root
    that is not an unresolved link (its first byte is not ['@'], or its
    ['@'] index is below the length of the object table), [GetType] returns
    the same kind on every later call, whatever accessors are invoked on
    nodes of the same root in between. *)
Theorem kind_stable `{Strconv} (input : slice) (s1 s2 : State)
    (p : ptr) (n : nat) (k : marshalledObjectType) :
  reachable input s1 -> calls s1 s2 ->
  unresolved_link s1 p = false ->
  GetType n p s1 = Ret k s1 ->
  GetType n p s2 = Ret k s2.
Proof.
  intros Hr Hc. apply GetType_stable.
  - eapply reachable_wf, Hr.
  - apply calls_ext, Hc.
Qed.

Lemma kind_stable_witness :
  objectCache linked_store_1 = [0%nat; 2%nat] /\
  objectCache linked_store_2 = [0%nat; 2%nat; 6%nat] /\
  GetType 2 4%nat linked_store_1 = Ret TYPE_INTEGER linked_store_1 /\
  GetType 2 4%nat linked_store_2 = Ret TYPE_INTEGER linked_store_2.
Proof.
  split; [reflexivity | ]. split; [reflexivity | ]. split; [reflexivity | ].
  apply (kind_stable (H := literal_strconv) linked_input linked_store_1 linked_store_2).
  - exists 0%nat, linked_store. split; [reflexivity | ].
    apply (calls_step _ linked_store _ 3 (CallGetAsArray 0%nat)); [apply calls_nil | ].
    vm_compute. reflexivity.
  - apply (calls_step _ linked_store_1 _ 3 (CallGetAsArray 0%nat)); [apply calls_nil | ].
    vm_compute. reflexivity.
  - vm_compute. reflexivity.
  - vm_compute. reflexivity.
Defined.

(** * Errors and panics *)


Lemma returns_ret {A} (P : A -> Prop) a : P a -> returns P (ret a).
Proof. intros Ha s a' s' [= <- _]. exact Ha. Qed.



Lemma returns_bind {A B} (P : B -> Prop) (m : M A) (f : A -> M B) :
  (forall a, returns P (f a)) -> returns P (bind m f).
Proof.
  intros Hf s b s'. unfold bind. destruct (m s) as [a s1 | s1 | ]; try discriminate.
  apply Hf.
Qed.

Lemma returns_bind_with {A B} (Q : A -> Prop) (P : B -> Prop) (m : M A) (f : A -> M B) :
  returns Q m -> (forall a, Q a -> returns P (f a)) -> returns P (bind m f).
Proof.
  intros Hm Hf s b s'. unfold bind. destruct (m s) as [a s1 | s1 | ] eqn:E; try discriminate.
  apply Hf. exact (Hm s a s1 E).
Qed.

Lemma assertType_returns fuel obj t :
  returns (fun e => e = None \/ e = Some TypeMismatch) (assertType fuel obj t).
Proof.
  unfold assertType. apply returns_bind. intros k.
  destruct (decide (k = t)); apply returns_ret; auto.
Qed.





Lemma GetAsInteger_truncated fuel obj s o :
  GetType fuel obj s = Ret TYPE_INTEGER s ->
  heap s !! obj = Some o ->
  slice_from (data o) 1 ≫= parseInt = None ->
  GetAsInteger fuel obj s = Panic s.
Proof.
  intros Hk Ho Hp. unfold GetAsInteger, assertType, bind. rewrite Hk. simpl.
  unfold load. rewrite Ho.
  destruct (slice_from (data o) 1) as [d | ]; [ | reflexivity].
  simpl in Hp. simpl. rewrite Hp. reflexivity.
Qed.

Lemma GetAsString_symlink_out_of_range n obj s o d i m :
  heap s !! obj = Some o ->
  index (data o) 0 = Some tag_symlink ->
  slice_from (data o) 1 = Some d ->
  parseInt d = Some (i, m) ->
  at_index (symbolCache s) i = None ->
  GetAsString (S (S n)) obj s = Panic s.
Proof.
  intros Ho Hb Hd Hi Hat.
  assert ((0 <? len (data o)) = true) as Hlen.
  { unfold index in Hb. simpl in Hb. apply lookup_lt_Some in Hb.
    apply Z.ltb_lt. unfold len. lia. }
  assert (first_is (data o) is_link = false) as Hlink.
  { unfold first_is. rewrite Hlen, Hb. reflexivity. }
  assert (first_is (data o) is_sigil = true) as Hsig.
  { unfold first_is. rewrite Hlen, Hb. reflexivity. }
  assert (GetType (S n) obj s = Ret TYPE_STRING s) as Hk.
  { rewrite GetType_unfold, Ho, (link_target_plain _ _ Hlink), Hb.
    destruct (Z.eqb_spec (len (data o)) 0) as [E | _]; [ | reflexivity].
    rewrite E in Hlen. discriminate. }
  cbn [GetAsString]. unfold bind at 1.
  rewrite resolveObjectLink_eq, Ho, (link_target_plain _ _ Hlink).
  unfold bind at 1. unfold assertType, bind at 1. rewrite Hk. simpl.
  unfold bind at 1. unfold cacheObject, bind at 1. unfold load at 1. rewrite Ho, Hsig.
  unfold ret at 1. unfold bind, load. rewrite Ho, Hb. simpl. rewrite Hd. simpl.
  rewrite Hi. simpl. unfold readSymbolCache. rewrite Hat. reflexivity.
Qed.

(** * Further properties of the parsers *)

Lemma index_Some_len data i x : index data i = Some x -> 0 <= i < len data.
Proof.
  unfold index, len. destruct (Z.leb_spec 0 i); [ | discriminate].
  intros Hx. apply lookup_lt_Some in Hx. lia.
Qed.

Lemma index_is_Some data i : 0 <= i < len data -> is_Some (index data i).
Proof.
  unfold index, len. intros Hi. destruct (Z.leb_spec 0 i); [ | lia].
  apply lookup_lt_is_Some. lia.
Qed.

Lemma assemble_Some_len f data i acc v :
  assemble f data i acc = Some v -> Z.of_nat i < len data \/ i = 0%nat.
Proof.
  destruct i as [| i]; [auto | ]. cbn [assemble].
  destruct (index data (Z.of_nat (S i))) as [x | ] eqn:Ex; [ | discriminate].
  intros _. left. apply (index_Some_len _ _ _ Ex).
Qed.

Lemma assemble_is_Some f data : forall i acc,
  Z.of_nat i < len data -> is_Some (assemble f data i acc).
Proof.
  induction i as [| i IH]; intros acc Hi; [eexists; reflexivity | ].
  cbn [assemble].
  destruct (index_is_Some data (Z.of_nat (S i))) as [x ->]; [lia | ].
  simpl. apply IH. lia.
Qed.

Lemma parseInt_success (data : slice) :
  (index data 0 = None -> parseInt data = None) /\
  (forall b, index data 0 = Some b ->
     (is_Some (parseInt data) <-> payload_bytes b < len data) /\
     (forall v n, parseInt data = Some (v, n) ->
        n = payload_bytes b + 1 /\ 1 <= n <= 6 /\ n <= len data)).
Proof.
  split.
  { intros H0. unfold parseInt. rewrite H0. reflexivity. }
  intros b H0. pose proof (bz_range b) as Hr.
  pose proof (index_Some_len _ _ _ H0) as Hlen.
  unfold parseInt, payload_bytes. rewrite H0. cbn [mbind option_bind]. cbv zeta.
  destruct (Z.ltb_spec 5 (bz b)) as [H5 | H5];
    [destruct (Z.ltb_spec (bz b) 251) as [Hfb | Hfb] | ]; cbn [andb].
  - (* inline *)
    destruct (Z.leb_spec (bz b) 5); [lia | ].
    destruct (Z.leb_spec 251 (bz b)); [lia | ].
    split.
    + split; [intros _; lia | intros _].
      destruct (127 <? bz b); eexists; reflexivity.
    + intros v n Hp. assert (n = 1) as ->; [ | lia].
      destruct (127 <? bz b); congruence.
  - (* counted, complemented *)
    destruct (Z.leb_spec (bz b) 5); [lia | ].
    destruct (Z.leb_spec 251 (bz b)); [ | lia].
    assert (add8 (sub8 255 (bz b)) 1 = 256 - bz b) as ->.
    { unfold add8, sub8, uint8. rewrite (Z.mod_small (255 - bz b)) by lia.
      rewrite Z.mod_small; lia. }
    assert (add8 (sub8 255 (bz b)) 2 = 256 - bz b + 1) as ->.
    { unfold add8, sub8, uint8. rewrite (Z.mod_small (255 - bz b)) by lia.
      rewrite Z.mod_small; lia. }
    destruct (assemble (fun x => sub64 255 x) data (Z.to_nat (256 - bz b)) 0)
      as [value | ] eqn:Ea; cbn [mbind option_bind].
    + apply assemble_Some_len in Ea. split.
      * split; [intros _; lia | intros _; eexists; reflexivity].
      * intros v n [= <- <-]. lia.
    + split.
      * split; [intros [? [=]] | intros Hlt].
        destruct (assemble_is_Some (fun x => sub64 255 x) data
                    (Z.to_nat (256 - bz b)) 0) as [? E]; [lia | congruence].
      * intros v n [=].
  - (* counted *)
    destruct (Z.leb_spec (bz b) 5); [ | lia].
    assert (add8 (bz b) 1 = bz b + 1) as ->.
    { unfold add8, uint8. rewrite Z.mod_small; lia. }
    destruct (assemble (fun x => x) data (Z.to_nat (bz b)) 0)
      as [value | ] eqn:Ea; cbn [mbind option_bind].
    + apply assemble_Some_len in Ea. split.
      * split; [intros _; lia | intros _; eexists; reflexivity].
      * intros v n [= <- <-]. lia.
    + split.
      * split; [intros [? [=]] | intros Hlt].
        destruct (assemble_is_Some (fun x => x) data (Z.to_nat (bz b)) 0)
          as [? E]; [lia | congruence].
      * intros v n [=].
Qed.

(** X1: the varint decoder succeeds exactly on the buffers that hold the
    first byte and the payload bytes it announces (an empty buffer and a
    cut payload make it panic), and the length it then reports is one
    more than the announced payload: between 1 and 6, and never more than
    the bytes of the buffer. *)
Theorem parseInt_succeeds_iff (data : slice) :
  (index data 0 = None -> parseInt data = None) /\
  (forall b, index data 0 = Some b ->
     (is_Some (parseInt data) <-> payload_bytes b < len data) /\
     (forall v n, parseInt data = Some (v, n) ->
        n = payload_bytes b + 1 /\ 1 <= n <= 6 /\ n <= len data)).
Proof. exact (parseInt_success data). Qed.

Lemma parseInt_succeeds_iff_witness :
  parseInt (buf []) = None /\
  is_Some (parseInt (buf [x02; x01; x01])) /\
  ~ is_Some (parseInt (buf [x02; x01])).
Proof.
  split; [ | split].
  - apply (parseInt_succeeds_iff (buf [])). reflexivity.
  - destruct (parseInt_succeeds_iff (buf [x02; x01; x01])) as [_ H].
    apply (H x02 eq_refl). vm_compute. reflexivity.
  - destruct (parseInt_succeeds_iff (buf [x02; x01])) as [_ H].
    intros Hs. apply (H x02 eq_refl) in Hs. vm_compute in Hs. discriminate.
Defined.

Lemma parseInt_range data v n :
  parseInt data = Some (v, n) -> - 2 ^ 40 <= v < 2 ^ 40.
Proof.
  intros Hp. destruct data as [[| b rest] sp]; [discriminate | ].
  pose proof (bz_range b) as Hr.
  destruct (proj2 (parseInt_success (Slice (b :: rest) sp)) b eq_refl) as [_ Hn].
  destruct (Hn v n Hp) as (_ & _ & Hlen).
  destruct (Hn v n Hp) as (Hpay & _). unfold payload_bytes in Hpay.
  unfold len in Hlen. simpl in Hlen.
  destruct (Z.leb_spec (bz b) 5) as [H5 | H5].
  - rewrite parseInt_counted in Hp by lia. injection Hp as <- _.
    set (l := bz <$> take (Z.to_nat (bz b)) rest).
    pose proof (le_value_bound l) as Hb.
    assert (Forall (fun x => 0 <= x <= 255) l) as Hall.
    { subst l. apply Forall_fmap, Forall_forall. intros x _. simpl.
      pose proof (bz_range x). lia. }
    specialize (Hb Hall).
    assert (length l = Z.to_nat (bz b)) as Hll.
    { subst l. rewrite length_fmap, length_take_le; lia. }
    rewrite Hll in Hb. pose proof (pow256_le (Z.to_nat (bz b))). lia.
  - destruct (Z.leb_spec 251 (bz b)) as [Hfb | Hfb].
    + rewrite parseInt_counted_neg in Hp by lia. injection Hp as <- _.
      set (l := (fun x => 255 - bz x) <$> take (Z.to_nat (256 - bz b)) rest).
      pose proof (le_value_bound l) as Hb.
      assert (Forall (fun x => 0 <= x <= 255) l) as Hall.
      { subst l. apply Forall_fmap, Forall_forall. intros x _. simpl.
        pose proof (bz_range x). lia. }
      specialize (Hb Hall).
      assert (length l = Z.to_nat (256 - bz b)) as Hll.
      { subst l. rewrite length_fmap, length_take_le; lia. }
      rewrite Hll in Hb. pose proof (pow256_le (Z.to_nat (256 - bz b))). lia.
    + revert Hp. unfold parseInt. rewrite index_0. cbn [mbind option_bind]. cbv zeta.
      rewrite lxor_ff.
      destruct (Z.ltb_spec 5 (bz b)); [ | lia].
      destruct (Z.ltb_spec (bz b) 251); [ | lia]. cbn [andb].
      destruct (Z.ltb_spec 127 (bz b)).
      * unfold add64, neg64. rewrite (int64_small (255 - bz b + 1)) by lia.
        rewrite (int64_small (- _)) by lia. rewrite int64_small by lia.
        intros [= <- _]. lia.
      * unfold sub64. rewrite int64_small by lia. intros [= <- _]. lia.
Qed.

(** X2: every value the varint decoder returns lies between -2^40 and
    2^40 - 1 (five payload bytes at most), so that none of its 64-bit
    operations wraps around. *)
Theorem parseInt_value_range (data : slice) (v n : Z) :
  parseInt data = Some (v, n) -> - 2 ^ 40 <= v < 2 ^ 40.
Proof. apply parseInt_range. Qed.

Lemma parseInt_value_range_witness :
  (parseInt (buf [xfb; x00; x00; x00; x00; x00]) = Some (- 2 ^ 40, 6) /\
   - 2 ^ 40 <= - 2 ^ 40 < 2 ^ 40) /\
  (parseInt (buf [x05; xff; xff; xff; xff; xff]) = Some (2 ^ 40 - 1, 6) /\
   - 2 ^ 40 <= 2 ^ 40 - 1 < 2 ^ 40).
Proof.
  split; (split; [reflexivity | ]).
  - apply (parseInt_value_range (buf [xfb; x00; x00; x00; x00; x00]) _ 6). reflexivity.
  - apply (parseInt_value_range (buf [x05; xff; xff; xff; xff; xff]) _ 6). reflexivity.
Defined.

Lemma index_app l l' sp sp' i x :
  index (Slice l sp) i = Some x -> index (Slice (l ++ l') sp') i = Some x.
Proof.
  unfold index. simpl. destruct (0 <=? i); [ | discriminate].
  intros Hx. rewrite lookup_app_l; eauto using lookup_lt_Some.
Qed.

Lemma assemble_app f l l' sp sp' : forall i acc v,
  assemble f (Slice l sp) i acc = Some v ->
  assemble f (Slice (l ++ l') sp') i acc = Some v.
Proof.
  induction i as [| i IH]; intros acc v; [exact id | ]. cbn [assemble].
  destruct (index (Slice l sp) (Z.of_nat (S i))) as [x | ] eqn:Ex; [ | discriminate].
  rewrite (index_app _ l' _ sp' _ _ Ex). simpl. apply IH.
Qed.

(** X3: the varint decoder reads only the bytes it consumes: what it
    returns on a buffer it returns on every buffer that extends it, with
    any capacity.  (The size of a value measured on the rest of the
    buffer is the size measured on the value's own bytes.) *)
Theorem parseInt_extends (l l' sp sp' : list byte) (r : Z * Z) :
  parseInt (Slice l sp) = Some r -> parseInt (Slice (l ++ l') sp') = Some r.
Proof.
  unfold parseInt.
  destruct (index (Slice l sp) 0) as [b | ] eqn:E0; [ | discriminate].
  rewrite (index_app _ l' _ sp' _ _ E0). cbn [mbind option_bind]. cbv zeta.
  destruct ((5 <? bz b) && (bz b <? 251)); [exact id | ].
  destruct (bz b <=? 5).
  - destruct (assemble (fun x => x) (Slice l sp) (Z.to_nat (bz b)) 0) as [v | ] eqn:Ea;
      [ | discriminate].
    rewrite (assemble_app _ _ l' _ sp' _ _ _ Ea). exact id.
  - destruct (assemble (fun x => sub64 255 x) (Slice l sp)
                (Z.to_nat (add8 (sub8 255 (bz b)) 1)) 0) as [v | ] eqn:Ea;
      [ | discriminate].
    rewrite (assemble_app _ _ l' _ sp' _ _ _ Ea). exact id.
Qed.

Lemma parseInt_extends_witness :
  parseInt (Slice [x02; x01; x01; x30; x54] [x46]) = Some (257, 3).
Proof.
  apply (parseInt_extends [x02; x01; x01] [x30; x54] [] [x46]). reflexivity.
Defined.

Lemma go_string_length (d : slice) : String.length (go_string d) = length (vis d).
Proof.
  unfold go_string, string_of_list_byte.
  induction (vis d) as [| b l IH]; simpl; [reflexivity | ]. rewrite IH. reflexivity.
Qed.

Lemma slice_range_Some data lo hi d :
  slice_range data lo hi = Some d ->
  0 <= lo <= hi /\ hi <= cap data /\ len d = hi - lo.
Proof.
  unfold slice_range.
  destruct (Z.leb_spec 0 lo); [ | discriminate].
  destruct (Z.leb_spec lo hi); [ | discriminate].
  destruct (Z.leb_spec hi (cap data)) as [Hcap | ]; [ | discriminate].
  simpl. intros [= <-]. unfold len, cap in *. simpl.
  rewrite length_take, length_drop, length_app. lia.
Qed.

Lemma parseString_facts (data : slice) :
  (forall str size, parseString data = Some (str, size) ->
     exists l h, parseInt data = Some (l, h) /\
       0 <= l /\ size = l + h /\ size <= cap data /\
       Z.of_nat (String.length str) = l) /\
  (forall l h, parseInt data = Some (l, h) ->
     l < 0 \/ cap data < l + h -> parseString data = None).
Proof.
  assert (forall l h, parseInt data = Some (l, h) -> add64 l h = l + h) as Hadd.
  { intros l h Hp. pose proof (parseInt_range _ _ _ Hp) as Hv.
    assert (1 <= h <= 6) as Hh.
    { destruct (index data 0) as [b | ] eqn:E0.
      - destruct (proj2 (parseInt_success data) b E0) as [_ Hn].
        destruct (Hn l h Hp) as (_ & Hh & _). exact Hh.
      - rewrite (proj1 (parseInt_success data) E0) in Hp. discriminate. }
    unfold add64. apply int64_small. lia. }
  split.
  - intros str size. unfold parseString.
    destruct (parseInt data) as [[l h] | ] eqn:Ep; [ | discriminate].
    cbn [mbind option_bind]. cbv zeta. rewrite (Hadd l h eq_refl).
    destruct (slice_range data h (l + h)) as [d | ] eqn:Ed; [ | discriminate].
    cbn [mbind option_bind]. intros [= <- <-].
    destruct (slice_range_Some _ _ _ _ Ed) as (Hlo & Hhi & Hlen).
    exists l, h. rewrite go_string_length. unfold len in Hlen.
    repeat split; lia.
  - intros l h Hp Hbad. unfold parseString. rewrite Hp.
    cbn [mbind option_bind]. cbv zeta. rewrite (Hadd l h Hp).
    destruct (slice_range data h (l + h)) as [d | ] eqn:Ed; [ | reflexivity].
    destruct (slice_range_Some _ _ _ _ Ed) as (Hlo & Hhi & Hlen). lia.
Qed.

(** X4: when [parseString] returns, the length prefix was not negative,
    the string holds exactly that many bytes, and the size reported is the
    prefix's own length plus the string's, within the capacity of the
    buffer; a negative length prefix, or one that reaches past the
    capacity, makes it panic. *)
Theorem parseString_returns (data : slice) :
  (forall str size, parseString data = Some (str, size) ->
     exists l h, parseInt data = Some (l, h) /\
       0 <= l /\ size = l + h /\ size <= cap data /\
       Z.of_nat (String.length str) = l) /\
  (forall l h, parseInt data = Some (l, h) ->
     l < 0 \/ cap data < l + h -> parseString data = None).
Proof. exact (parseString_facts data). Qed.

Lemma parseString_returns_witness :
  (exists l h, parseInt (buf [x07; x68; x69]) = Some (l, h) /\
     0 <= l /\ 3 = l + h /\ 3 <= cap (buf [x07; x68; x69]) /\
     Z.of_nat (String.length "hi") = l) /\
  parseString (buf [xfa; x68; x69]) = None /\
  parseString (buf [x08; x68; x69]) = None.
Proof.
  split; [ | split].
  - apply (proj1 (parseString_returns (buf [x07; x68; x69])) "hi"%string 3). reflexivity.
  - apply (proj2 (parseString_returns (buf [xfa; x68; x69])) (-1) 1); [reflexivity | ].
    left. lia.
  - apply (proj2 (parseString_returns (buf [x08; x68; x69])) 3 1); [reflexivity | ].
    right. vm_compute. reflexivity.
Defined.

(** * Further properties of the accessors *)

(** ** Steps of the methods on a node that is not a link *)

Lemma store_eta s : Store (heap s) (symbolCache s) (objectCache s) = s.
Proof. destruct s. reflexivity. Qed.

Lemma first_is_len d P : first_is d P = true -> 0 < len d.
Proof. unfold first_is. destruct (Z.ltb_spec 0 (len d)); [auto | discriminate]. Qed.

Lemma resolveObjectLink_plain p s o :
  heap s !! p = Some o -> first_is (data o) is_link = false ->
  resolveObjectLink p s = Ret None s.
Proof.
  intros Ho Hl. rewrite resolveObjectLink_eq, Ho, (link_target_plain _ _ Hl). reflexivity.
Qed.

Lemma GetType_plain m p s o :
  heap s !! p = Some o -> first_is (data o) is_link = false ->
  GetType (S m) p s = Ret (kind_of_data (data o)) s.
Proof.
  intros Ho Hl. rewrite GetType_unfold, Ho, (link_target_plain _ _ Hl).
  unfold kind_of_data.
  destruct (Z.eqb_spec (len (data o)) 0) as [E | E].
  - destruct (index (data o) 0) as [b | ] eqn:Eb; [ | reflexivity].
    apply index_Some_len in Eb. lia.
  - destruct (index (data o) 0) as [b | ] eqn:Eb; [reflexivity | ].
    destruct (index_is_Some (data o) 0) as [b Eb']; [ | congruence].
    unfold len in *. lia.
Qed.

Lemma assertType_ok fuel p s t :
  GetType fuel p s = Ret t s -> assertType fuel p t s = Ret None s.
Proof.
  intros Hk. unfold assertType, bind. rewrite Hk.
  destruct (decide (t = t)); [reflexivity | contradiction].
Qed.

Lemma cacheObject_sigil fuel obj p s o :
  heap s !! p = Some o -> first_is (data o) is_sigil = true ->
  cacheObject fuel obj p s = Ret tt s.
Proof.
  intros Ho Hs. unfold cacheObject, bind, load. rewrite Ho, Hs. reflexivity.
Qed.

Lemma cacheObject_register fuel obj p s o t :
  heap s !! p = Some o -> first_is (data o) is_sigil = false ->
  GetType fuel obj s = Ret t s -> registrable t = true ->
  cacheObject fuel obj p s = Ret tt (register p s).
Proof.
  intros Ho Hs Hk Hr. unfold cacheObject, bind, load, register.
  rewrite Ho, Hs, Hk, Hr. simpl. unfold readObjectCache.
  case_bool_decide; reflexivity.
Qed.

Lemma cacheObject_skip fuel obj p s o t :
  heap s !! p = Some o -> GetType fuel obj s = Ret t s -> registrable t = false ->
  cacheObject fuel obj p s = Ret tt s.
Proof.
  intros Ho Hk Hr. unfold cacheObject, bind, load. rewrite Ho.
  destruct (first_is (data o) is_sigil); [reflexivity | ].
  rewrite Hk, Hr. reflexivity.
Qed.

Lemma cacheSymbols_single x s : cacheSymbols [x] s = Ret tt (intern x s).
Proof.
  unfold cacheSymbols, intern, bind, readSymbolCache, writeSymbolCache. simpl.
  rewrite (bool_decide_ext (x ∈ (list_to_set (symbolCache s) : gset string))
             (x ∈ symbolCache s)) by apply elem_of_list_to_set.
  case_bool_decide; [rewrite store_eta | ]; reflexivity.
Qed.

Lemma cacheSymbols_nil s : cacheSymbols [] s = Ret tt s.
Proof. reflexivity. Qed.

Lemma heap_register p s : heap (register p s) = heap s.
Proof. unfold register. case_bool_decide; reflexivity. Qed.

Lemma heap_intern x s : heap (intern x s) = heap s.
Proof. unfold intern. case_bool_decide; reflexivity. Qed.

Lemma first_is_index d P :
  first_is d P = true -> exists b, index d 0 = Some b /\ P b = true.
Proof.
  unfold first_is. destruct (0 <? len d); [ | discriminate]. simpl.
  destruct (index d 0) as [b | ]; [eauto | discriminate].
Qed.

Lemma is_link_eq b : is_link b = true -> b = tag_link.
Proof. unfold is_link. apply Byte.byte_dec_bl. Qed.

Lemma link_target_Some s o r :
  link_target s o = Some (Some r) ->
  first_is (data o) is_link = true /\
  exists d idx k, slice_from (data o) 1 = Some d /\ parseInt d = Some (idx, k) /\
    at_index (objectCache s) idx = Some r.
Proof.
  unfold link_target. destruct (first_is (data o) is_link); [ | discriminate].
  destruct (slice_from (data o) 1) as [d | ] eqn:Ed; [ | discriminate]. simpl.
  destruct (parseInt d) as [[idx k] | ] eqn:Ep; [ | discriminate]. simpl.
  destruct (idx <? Z.of_nat (length (objectCache s))); [ | discriminate].
  destruct (at_index (objectCache s) idx) as [r' | ] eqn:Er; [ | discriminate].
  simpl. intros [= <-]. split; [reflexivity | ]. exists d, idx, k.
  split; [reflexivity | ]. split; [exact Ep | exact Er].
Qed.

(** ** Kinds *)

(** X5: in every store reached from a decoded root, fuel 2 is all that
    [GetType] needs (a link is followed once, never in a circle), and the
    kind is read as follows: for a node that is not a link, off its own
    first bytes; for a link whose index is inside the object table, off the
    first bytes of the node registered there; for a link whose index is
    not below the length of the table, Unknown; and a link whose index is
    cut short or negative makes the call panic. *)
Theorem kind_in_reachable_store `{Strconv} (input : slice) (s : State)
    (p : ptr) (o : MarshalledObject) (m : nat) :
  reachable input s -> heap s !! p = Some o ->
  GetType (2 + m) p s =
    if first_is (data o) is_link then
      match link_target s o with
      | None => Panic s
      | Some None => Ret TYPE_UNKNOWN s
      | Some (Some r) =>
          match heap s !! r with
          | Some ro => Ret (kind_of_data (data ro)) s
          | None => Panic s
          end
      end
    else Ret (kind_of_data (data o)) s.
Proof.
  intros Hr Ho. pose proof (reachable_wf _ _ Hr) as Hwf.
  destruct (first_is (data o) is_link) eqn:Hl.
  2: { apply (GetType_plain _ _ _ _ Ho Hl). }
  change (2 + m)%nat with (S (S m)). rewrite GetType_unfold, Ho.
  destruct (first_is_index _ _ Hl) as (b & Hb & Hbl). apply is_link_eq in Hbl. subst b.
  pose proof (first_is_len _ _ Hl) as Hlen.
  destruct (Z.eqb_spec (len (data o)) 0); [lia | ].
  destruct (link_target s o) as [[r | ] | ] eqn:Et; [ | rewrite Hb; reflexivity | reflexivity].
  destruct (link_target_Some _ _ _ Et) as (_ & d & idx & k & _ & _ & Hat).
  apply at_index_elem in Hat.
  destruct (proj1 (Forall_forall _ _) (wf_plain _ Hwf) r Hat) as (ro & Hro & Hsig).
  rewrite Hro. apply (GetType_plain _ _ _ _ Hro (first_is_sigil_link _ Hsig)).
Qed.

Lemma links_store_reachable :
  reachable (H := literal_strconv)
    (buf [x04; x08; x5b; x09; x54; x69; x2f; x40; x06; x40; x07]) links_store.
Proof.
  eexists 0%nat, _. split; [reflexivity | ].
  apply (calls_step _ _ _ 3 (CallGetAsArray 0%nat) (calls_nil _)).
  vm_compute. reflexivity.
Qed.

Lemma kind_in_reachable_store_witness :
  GetType 2 6%nat links_store = Ret TYPE_BOOL links_store /\
  GetType 5 8%nat links_store = Ret TYPE_INTEGER links_store.
Proof.
  split.
  - exact (kind_in_reachable_store (H := literal_strconv) _ links_store 6%nat _ 0
             links_store_reachable eq_refl).
  - exact (kind_in_reachable_store (H := literal_strconv) _ links_store 8%nat _ 3
             links_store_reachable eq_refl).
Defined.

(** X6: [GetAsBool] and [GetAsInteger] do not follow links, although
    [GetType] does: on a link that resolves to a node of kind Bool,
    [GetAsBool] returns false without error whatever the node holds, and on
    a link that resolves to a node of kind Integer, [GetAsInteger] returns
    the index of the link, not the integer of the node. *)
Theorem value_accessors_ignore_links (n : nat) (p : ptr) (s : State)
    (o : MarshalledObject) :
  heap s !! p = Some o -> first_is (data o) is_link = true ->
  (GetType n p s = Ret TYPE_BOOL s -> GetAsBool n p s = Ret (false, None) s) /\
  (GetType n p s = Ret TYPE_INTEGER s ->
   exists d idx k,
     slice_from (data o) 1 = Some d /\ parseInt d = Some (idx, k) /\
     GetAsInteger n p s = Ret (idx, None) s).
Proof.
  intros Ho Hl. destruct (first_is_index _ _ Hl) as (b & Hb & Hbl).
  apply is_link_eq in Hbl. subst b. split; intros Hk.
  - unfold GetAsBool, bind. rewrite (assertType_ok _ _ _ _ Hk).
    unfold load. rewrite Ho. unfold parseBool. rewrite Hb. reflexivity.
  - destruct n as [| n]; [discriminate | ].
    pose proof Hk as Hk'. rewrite GetType_unfold, Ho in Hk'.
    pose proof (first_is_len _ _ Hl) as Hlen.
    destruct (Z.eqb_spec (len (data o)) 0); [lia | ].
    destruct (link_target s o) as [[r | ] | ] eqn:Et; [ | | discriminate].
    2: { rewrite Hb in Hk'. discriminate. }
    destruct (link_target_Some _ _ _ Et) as (_ & d & idx & k & Hd & Hp & _).
    exists d, idx, k. split; [exact Hd | ]. split; [exact Hp | ].
    unfold GetAsInteger, bind. rewrite (assertType_ok _ _ _ _ Hk).
    unfold load. rewrite Ho. simpl. rewrite Hd. simpl. rewrite Hp. reflexivity.
Qed.

Lemma value_accessors_ignore_links_witness :
  value_of (GetAsBool 1 2%nat links_store) = Some (true, None) /\
  GetAsBool 2 6%nat links_store = Ret (false, None) links_store /\
  value_of (GetAsInteger 1 4%nat links_store) = Some (42, None) /\
  value_of (GetAsInteger 2 8%nat links_store) = Some (2, None).
Proof.
  split; [reflexivity | ]. split; [ | split; [reflexivity | ]].
  - destruct (value_accessors_ignore_links 2 6%nat links_store
                (Node x04 x08 (Slice [x40; x06] [x40; x07]) 2) eq_refl eq_refl) as [Hb _].
    apply Hb. reflexivity.
  - destruct (value_accessors_ignore_links 2 8%nat links_store
                (Node x04 x08 (Slice [x40; x07] []) 2) eq_refl eq_refl) as [_ Hi].
    destruct (Hi eq_refl) as (d & idx & k & Hd & Hp & Hv).
    rewrite Hv. simpl. injection Hd as <-. injection Hp as <- _. reflexivity.
Defined.

(** ** What the calls keep *)

(** X7: no call frees or rewrites a node: after any call, returning or
    panicking, every handle that was allocated is still allocated, and its
    node has the same bytes (with the same capacity) and the same version;
    only its size may have been set. *)
Theorem nodes_are_kept `{Strconv} (fuel : nat) (c : call) (s s' : State)
    (p : ptr) (o : MarshalledObject) :
  final (perform fuel c s) = Some s' -> heap s !! p = Some o ->
  exists o', heap s' !! p = Some o' /\ data o' = data o /\
    MajorVersion o' = MajorVersion o /\ MinorVersion o' = MinorVersion o.
Proof. intros Hc. exact (ext_heap _ _ (perform_ext fuel c s s' Hc) p o). Qed.

Lemma nodes_are_kept_witness :
  exists o', heap linked_store_1 !! 0%nat = Some o' /\
    data o' = buf [x5b; x07; x69; x06; x40; x06] /\
    MajorVersion o' = x04 /\ MinorVersion o' = x08.
Proof.
  apply (nodes_are_kept (H := literal_strconv) 3 (CallGetAsArray 0%nat) linked_store
           linked_store_1 0%nat (Node x04 x08 (buf [x5b; x07; x69; x06; x40; x06]) 6)).
  - vm_compute. reflexivity.
  - reflexivity.
Defined.

Lemma object_table_growth_witness :
  exists added,
    objectCache linked_store_2 = objectCache linked_store_1 ++ added /\
    NoDup added /\ (forall p, p ∈ added -> p ∉ objectCache linked_store_1) /\
    Forall (plain linked_store_2) added.
Proof.
  apply (object_table_growth (H := literal_strconv) 3 (CallGetAsArray 0%nat)).
  vm_compute. reflexivity.
Defined.

(** X9: in every store reached from a decoded root, neither table holds
    an entry twice, and every entry of the object table is the handle of
    an allocated node whose data does not start with ['@'], [':'] or
    [';']. *)
Theorem reachable_tables_well_formed `{Strconv} (input : slice) (s : State) :
  reachable input s ->
  NoDup (symbolCache s) /\ NoDup (objectCache s) /\
  forall p, p ∈ objectCache s ->
    exists o, heap s !! p = Some o /\ first_is (data o) is_sigil = false.
Proof.
  intros Hr. destruct (reachable_wf _ _ Hr) as [Hs Ho Hp].
  split; [exact Hs | ]. split; [exact Ho | ].
  intros p Hin. exact (proj1 (Forall_forall _ _) Hp p Hin).
Qed.

Lemma reachable_tables_well_formed_witness :
  NoDup (symbolCache links_store) /\ NoDup (objectCache links_store) /\
  forall p, p ∈ objectCache links_store ->
    exists o, heap links_store !! p = Some o /\ first_is (data o) is_sigil = false.
Proof.
  exact (reachable_tables_well_formed (H := literal_strconv) _ links_store
           links_store_reachable).
Defined.

(** ** Containers *)

Lemma bind_Ret {A B} (m : M A) (f : A -> M B) s a s' :
  m s = Ret a s' -> bind m f s = f a s'.
Proof. intros Hm. unfold bind. rewrite Hm. reflexivity. Qed.

Lemma load_Ret p s o : heap s !! p = Some o -> load p s = Ret o s.
Proof. intros Ho. unfold load. rewrite Ho. reflexivity. Qed.

Lemma lift_Ret {A} (x : option A) a s : x = Some a -> lift x s = Ret a s.
Proof. intros ->. reflexivity. Qed.

Lemma tag_first_is d b P :
  index d 0 = Some b -> first_is d P = P b.
Proof.
  intros Hb. unfold first_is. rewrite Hb.
  apply index_Some_len in Hb. destruct (Z.ltb_spec 0 (len d)); [reflexivity | lia].
Qed.

Lemma parseInt_length_small d n k : parseInt d = Some (n, k) -> add64 k 1 = k + 1.
Proof.
  intros Hp. assert (1 <= k <= 6) as Hk.
  { destruct (index d 0) as [b | ] eqn:E0.
    - destruct (proj2 (parseInt_success d) b E0) as [_ Hn].
      destruct (Hn n k Hp) as (_ & Hk & _). exact Hk.
    - rewrite (proj1 (parseInt_success d) E0) in Hp. discriminate. }
  unfold add64. apply int64_small. lia.
Qed.

Section ContainerHeads.
Context `{Strconv}.

(** [GetAsArray] on an array node, up to its loop. *)
Lemma GetAsArray_head m p s o d n k :
  heap s !! p = Some o -> index (data o) 0 = Some tag_array ->
  slice_from (data o) 1 = Some d -> parseInt d = Some (n, k) ->
  GetAsArray (S (S m)) p s =
    if n <? 0 then Panic (register p s)
    else (' (value, offset) <-
            arrayLoop (getSize (S m)) (S m) p (Z.to_nat n) (k + 1) [];;
          setSize p offset;;
          ret (value, None)) (register p s).
Proof.
  intros Ho Hb Hd Hp.
  pose proof (tag_first_is _ _ is_link Hb) as Hl.
  pose proof (tag_first_is _ _ is_sigil Hb) as Hs.
  assert (GetType (S m) p s = Ret TYPE_ARRAY s) as Hk.
  { rewrite (GetType_plain _ _ _ _ Ho Hl). unfold kind_of_data. rewrite Hb. reflexivity. }
  cbn [GetAsArray].
  rewrite (bind_Ret _ _ _ _ _ (resolveObjectLink_plain _ _ _ Ho Hl)).
  rewrite (bind_Ret _ _ _ _ _ (assertType_ok _ _ _ _ Hk)).
  rewrite (bind_Ret _ _ _ _ _ (cacheObject_register _ _ _ _ _ _ Ho Hs Hk eq_refl)).
  assert (heap (register p s) !! p = Some o) as Ho' by (rewrite heap_register; exact Ho).
  rewrite (bind_Ret _ _ _ _ _ (load_Ret _ _ _ Ho')).
  rewrite (bind_Ret _ _ _ _ _ (lift_Ret _ _ _ Hd)).
  rewrite (bind_Ret _ _ _ _ _ (lift_Ret _ _ _ Hp)).
  rewrite (parseInt_length_small _ _ _ Hp).
  destruct (n <? 0); reflexivity.
Qed.

(** [GetAsMap] on a map node, up to its loop. *)
Lemma GetAsMap_head m p s o d n k :
  heap s !! p = Some o -> index (data o) 0 = Some tag_map ->
  slice_from (data o) 1 = Some d -> parseInt d = Some (n, k) ->
  GetAsMap (S (S m)) p s =
    (' (value, offset) <-
       mapLoop (getSize (S m)) (S m) p (Z.to_nat n) (k + 1) ∅;;
     setSize p offset;;
     ret (value, None)) (register p s).
Proof.
  intros Ho Hb Hd Hp.
  pose proof (tag_first_is _ _ is_link Hb) as Hl.
  pose proof (tag_first_is _ _ is_sigil Hb) as Hs.
  assert (GetType (S m) p s = Ret TYPE_MAP s) as Hk.
  { rewrite (GetType_plain _ _ _ _ Ho Hl). unfold kind_of_data. rewrite Hb. reflexivity. }
  cbn [GetAsMap].
  rewrite (bind_Ret _ _ _ _ _ (resolveObjectLink_plain _ _ _ Ho Hl)).
  rewrite (bind_Ret _ _ _ _ _ (assertType_ok _ _ _ _ Hk)).
  rewrite (bind_Ret _ _ _ _ _ (cacheObject_register _ _ _ _ _ _ Ho Hs Hk eq_refl)).
  assert (heap (register p s) !! p = Some o) as Ho' by (rewrite heap_register; exact Ho).
  rewrite (bind_Ret _ _ _ _ _ (load_Ret _ _ _ Ho')).
  rewrite (bind_Ret _ _ _ _ _ (lift_Ret _ _ _ Hd)).
  rewrite (bind_Ret _ _ _ _ _ (lift_Ret _ _ _ Hp)).
  rewrite (parseInt_length_small _ _ _ Hp). reflexivity.
Qed.

Lemma setSize_Ret p n s o :
  heap s !! p = Some o -> setSize p n s = Ret tt (with_size p n s).
Proof. intros Ho. unfold setSize, with_size. rewrite Ho. reflexivity. Qed.

End ContainerHeads.

(** X10: counts at the edge.  On an array node whose count is negative
    [GetAsArray] panics, after it has registered the node; on an array
    node whose count is 0 it returns no handle and no error and sets the
    size of the node to 1 plus the length of the count; on a map node
    whose count is 0 or negative [GetAsMap] returns the empty map and no
    error, and sets the size likewise. *)
Theorem container_counts_at_the_edge `{Strconv} (m : nat) (p : ptr) (s : State)
    (o : MarshalledObject) (d : slice) (n k : Z) :
  heap s !! p = Some o ->
  slice_from (data o) 1 = Some d -> parseInt d = Some (n, k) ->
  (index (data o) 0 = Some tag_array -> n < 0 ->
   GetAsArray (S (S m)) p s = Panic (register p s)) /\
  (index (data o) 0 = Some tag_array -> n = 0 ->
   GetAsArray (S (S m)) p s = Ret ([], None) (with_size p (k + 1) (register p s))) /\
  (index (data o) 0 = Some tag_map -> n <= 0 ->
   GetAsMap (S (S m)) p s = Ret (∅, None) (with_size p (k + 1) (register p s))).
Proof.
  intros Ho Hd Hp.
  assert (heap (register p s) !! p = Some o) as Ho' by (rewrite heap_register; exact Ho).
  split; [ | split].
  - intros Hb Hn. rewrite (GetAsArray_head _ _ _ _ _ _ _ Ho Hb Hd Hp).
    destruct (Z.ltb_spec n 0); [reflexivity | lia].
  - intros Hb ->. rewrite (GetAsArray_head _ _ _ _ _ _ _ Ho Hb Hd Hp).
    change (0 <? 0) with false. change (Z.to_nat 0) with 0%nat.
    cbn [arrayLoop]. unfold bind, ret. cbv beta iota.
    rewrite (setSize_Ret _ _ _ _ Ho'). reflexivity.
  - intros Hb Hn. rewrite (GetAsMap_head _ _ _ _ _ _ _ Ho Hb Hd Hp).
    assert (Z.to_nat n = 0%nat) as -> by lia.
    cbn [mapLoop]. unfold bind, ret. cbv beta iota.
    rewrite (setSize_Ret _ _ _ _ Ho'). reflexivity.
Qed.

Lemma container_counts_at_the_edge_witness :
  (exists s1, GetAsArray (H := literal_strconv) 2 0%nat
                (Store [Node x04 x08 (buf [x5b; xfa]) 2] [] []) = Panic s1 /\
              objectCache s1 = [0%nat]) /\
  value_of (GetAsArray (H := literal_strconv) 2 0%nat
              (Store [Node x04 x08 (buf [x5b; x00]) 2] [] [])) = Some ([], None) /\
  value_of (GetAsMap (H := literal_strconv) 2 0%nat
              (Store [Node x04 x08 (buf [x7b; xfa]) 2] [] [])) = Some (∅, None).
Proof.
  split; [ | split].
  - eexists. split.
    + destruct (container_counts_at_the_edge (H := literal_strconv) 0 0%nat
                  (Store [Node x04 x08 (buf [x5b; xfa]) 2] [] [])
                  _ (buf [xfa]) (-1) 1 eq_refl eq_refl eq_refl) as (Hneg & _ & _).
      apply Hneg; [reflexivity | lia].
    + reflexivity.
  - destruct (container_counts_at_the_edge (H := literal_strconv) 0 0%nat
                (Store [Node x04 x08 (buf [x5b; x00]) 2] [] [])
                _ (buf [x00]) 0 1 eq_refl eq_refl eq_refl) as (_ & Hzero & _).
    rewrite Hzero; reflexivity.
  - destruct (container_counts_at_the_edge (H := literal_strconv) 0 0%nat
                (Store [Node x04 x08 (buf [x7b; xfa]) 2] [] [])
                _ (buf [xfa]) (-1) 1 eq_refl eq_refl eq_refl) as (_ & _ & Hmap).
    rewrite Hmap; [reflexivity | reflexivity | lia].
Defined.

Section ArrayLength.
Context `{Strconv}.

Lemma arrayLoop_length getSize fuel obj : forall count offset value,
  returns (fun r => length (fst r) = (length value + count)%nat)
          (arrayLoop getSize fuel obj count offset value).
Proof.
  induction count as [| c IH]; intros offset value; cbn [arrayLoop].
  - apply returns_ret. simpl. lia.
  - do 7 (apply returns_bind; intros ?).
    intros s r s' Hr. rewrite (IH _ _ s r s' Hr), length_app. simpl. lia.
Qed.

End ArrayLength.

(** X11: when [GetAsArray] returns on an array node, it returns no error
    and exactly as many handles as the count of the array announces. *)
Theorem GetAsArray_length `{Strconv} (m : nat) (p : ptr) (s s' : State)
    (o : MarshalledObject) (d : slice) (n k : Z)
    (value : list ptr) (err : option error) :
  heap s !! p = Some o -> index (data o) 0 = Some tag_array ->
  slice_from (data o) 1 = Some d -> parseInt d = Some (n, k) ->
  GetAsArray (S (S m)) p s = Ret (value, err) s' ->
  err = None /\ Z.of_nat (length value) = n.
Proof.
  intros Ho Hb Hd Hp. rewrite (GetAsArray_head _ _ _ _ _ _ _ Ho Hb Hd Hp).
  destruct (Z.ltb_spec n 0) as [ | Hn]; [discriminate | ].
  unfold bind at 1.
  destruct (arrayLoop (getSize (S m)) (S m) p (Z.to_nat n) (k + 1) [] (register p s))
    as [[v offset] s1 | s1 | ] eqn:Eloop; [ | discriminate | discriminate].
  pose proof (arrayLoop_length _ _ _ _ _ _ _ _ _ Eloop) as Hlen. simpl in Hlen.
  unfold bind, ret. destruct (setSize p offset s1) as [[] s2 | s2 | ]; [ | discriminate..].
  intros [= <- <- _]. split; [reflexivity | lia].
Qed.

Lemma GetAsArray_length_witness :
  value_of (GetAsArray (H := literal_strconv) 3 0%nat linked_store) =
    Some ([2%nat; 4%nat], None) /\
  Z.of_nat (length [2%nat; 4%nat]) = 2.
Proof.
  split; [reflexivity | ].
  refine (proj2 (GetAsArray_length (H := literal_strconv) 1 0%nat linked_store linked_store_1
            _ (buf [x07; x69; x06; x40; x06]) 2 1 [2%nat; 4%nat] None
            eq_refl eq_refl eq_refl eq_refl _)).
  vm_compute. reflexivity.
Defined.

(** ** Symbols *)

Lemma GetAsString_symbol m p s o d v k :
  heap s !! p = Some o -> index (data o) 0 = Some tag_symbol ->
  slice_from (data o) 1 = Some d -> parseString d = Some (v, k) ->
  GetAsString (S (S m)) p s = Ret (v, None) (intern v s).
Proof.
  intros Ho Hb Hd Hp.
  pose proof (tag_first_is _ _ is_link Hb) as Hl.
  pose proof (tag_first_is _ _ is_sigil Hb) as Hs.
  assert (GetType (S m) p s = Ret TYPE_STRING s) as Hk.
  { rewrite (GetType_plain _ _ _ _ Ho Hl). unfold kind_of_data. rewrite Hb. reflexivity. }
  cbn [GetAsString].
  rewrite (bind_Ret _ _ _ _ _ (resolveObjectLink_plain _ _ _ Ho Hl)).
  rewrite (bind_Ret _ _ _ _ _ (assertType_ok _ _ _ _ Hk)).
  rewrite (bind_Ret _ _ _ _ _ (cacheObject_sigil _ _ _ _ _ Ho Hs)).
  rewrite (bind_Ret _ _ _ _ _ (load_Ret _ _ _ Ho)).
  rewrite (bind_Ret _ _ _ _ _ (lift_Ret _ _ _ Hb)).
  change (Byte.eqb tag_symbol tag_symbol) with true. cbv iota.
  rewrite (bind_Ret _ _ _ _ _ (lift_Ret _ _ _ Hd)).
  rewrite (bind_Ret _ _ _ _ _ (lift_Ret _ _ _ Hp)).
  rewrite (bind_Ret _ _ _ _ _ (cacheSymbols_single _ _)). reflexivity.
Qed.

Lemma GetAsString_symlink m p s o d i k v :
  heap s !! p = Some o -> index (data o) 0 = Some tag_symlink ->
  slice_from (data o) 1 = Some d -> parseInt d = Some (i, k) ->
  at_index (symbolCache s) i = Some v ->
  GetAsString (S (S m)) p s = Ret (v, None) s.
Proof.
  intros Ho Hb Hd Hp Hat.
  pose proof (tag_first_is _ _ is_link Hb) as Hl.
  pose proof (tag_first_is _ _ is_sigil Hb) as Hs.
  assert (GetType (S m) p s = Ret TYPE_STRING s) as Hk.
  { rewrite (GetType_plain _ _ _ _ Ho Hl). unfold kind_of_data. rewrite Hb. reflexivity. }
  cbn [GetAsString].
  rewrite (bind_Ret _ _ _ _ _ (resolveObjectLink_plain _ _ _ Ho Hl)).
  rewrite (bind_Ret _ _ _ _ _ (assertType_ok _ _ _ _ Hk)).
  rewrite (bind_Ret _ _ _ _ _ (cacheObject_sigil _ _ _ _ _ Ho Hs)).
  rewrite (bind_Ret _ _ _ _ _ (load_Ret _ _ _ Ho)).
  rewrite (bind_Ret _ _ _ _ _ (lift_Ret _ _ _ Hb)).
  change (Byte.eqb tag_symlink tag_symbol) with false.
  change (Byte.eqb tag_symlink tag_symlink) with true. cbv iota.
  rewrite (bind_Ret _ _ _ _ _ (lift_Ret _ _ _ Hd)).
  rewrite (bind_Ret _ _ _ _ _ (lift_Ret _ _ _ Hp)).
  unfold bind, readSymbolCache. rewrite Hat. reflexivity.
Qed.

(** X12: on a symbol link [;i] whose index is inside the symbol table,
    [GetAsString] returns the string held at position i, without error,
    and leaves the store as it was (neither table is written). *)
Theorem symbol_link_reads_table (m : nat) (p : ptr) (s : State)
    (o : MarshalledObject) (d : slice) (i k : Z) (v : string) :
  heap s !! p = Some o -> index (data o) 0 = Some tag_symlink ->
  slice_from (data o) 1 = Some d -> parseInt d = Some (i, k) ->
  at_index (symbolCache s) i = Some v ->
  GetAsString (S (S m)) p s = Ret (v, None) s.
Proof. apply GetAsString_symlink. Qed.

Lemma symbol_link_reads_table_witness :
  let s := Store [Node x04 x08 (buf [x3b; x06]) 2] ["a"; "b"]%string [] in
  GetAsString 2 0%nat s = Ret ("b"%string, None) s.
Proof.
  intros s.
  apply (symbol_link_reads_table 0 0%nat s (Node x04 x08 (buf [x3b; x06]) 2) (buf [x06]) 1 1);
    reflexivity.
Defined.

(** X13: a symbol definition followed by a link to it yields the same
    string twice.  [GetAsString] on a definition [:] returns the string it
    parses and leaves it in the symbol table (appended if it was not
    there), and [GetAsString] on a link whose index is the position of
    that string then returns the same string and changes nothing more. *)
Theorem symbol_definition_then_link (m : nat) (p q : ptr) (s : State)
    (o oq : MarshalledObject) (d dq : slice) (v : string) (k i kq : Z) :
  heap s !! p = Some o -> index (data o) 0 = Some tag_symbol ->
  slice_from (data o) 1 = Some d -> parseString d = Some (v, k) ->
  heap s !! q = Some oq -> index (data oq) 0 = Some tag_symlink ->
  slice_from (data oq) 1 = Some dq -> parseInt dq = Some (i, kq) ->
  at_index (symbolCache (intern v s)) i = Some v ->
  v ∈ symbolCache (intern v s) /\
  (r1 <- GetAsString (S (S m)) p;; r2 <- GetAsString (S (S m)) q;; ret (r1, r2)) s =
    Ret ((v, None), (v, None)) (intern v s).
Proof.
  intros Ho Hb Hd Hp Hoq Hbq Hdq Hpq Hat. split.
  - unfold intern. case_bool_decide as Hin; [exact Hin | ]. simpl.
    apply elem_of_app. right. apply list_elem_of_singleton. reflexivity.
  - rewrite (bind_Ret _ _ _ _ _ (GetAsString_symbol m _ _ _ _ _ _ Ho Hb Hd Hp)).
    assert (heap (intern v s) !! q = Some oq) as Hoq' by (rewrite heap_intern; exact Hoq).
    rewrite (bind_Ret _ _ _ _ _ (GetAsString_symlink m _ _ _ _ _ _ _ Hoq' Hbq Hdq Hpq Hat)).
    reflexivity.
Qed.

Lemma symbol_definition_then_link_witness :
  let s := Store [Node x04 x08 (buf [x3a; x06; x61]) 3; Node x04 x08 (buf [x3b; x00]) 2]
                 [] [] in
  (r1 <- GetAsString 2 0%nat;; r2 <- GetAsString 2 1%nat;; ret (r1, r2)) s =
    Ret (("a"%string, None), ("a"%string, None)) (intern "a" s).
Proof.
  intros s.
  apply (symbol_definition_then_link 0 0%nat 1%nat s
           (Node x04 x08 (buf [x3a; x06; x61]) 3) (Node x04 x08 (buf [x3b; x00]) 2)
           (buf [x06; x61]) (buf [x00]) "a"%string 2 0 1); reflexivity.
Defined.

(** ** Reading a string twice *)

Lemma intern_idem x s : intern x (intern x s) = intern x s.
Proof.
  assert (x ∈ symbolCache (intern x s)) as Hin.
  { unfold intern. case_bool_decide as Hin; [exact Hin | ]. simpl.
    apply elem_of_app. right. apply list_elem_of_singleton. reflexivity. }
  unfold intern at 1. rewrite bool_decide_eq_true_2 by exact Hin. reflexivity.
Qed.

Lemma intern_first_idem c s : intern_first c (intern_first c s) = intern_first c s.
Proof. destruct c as [| x c]; [reflexivity | apply intern_idem]. Qed.

Lemma heap_intern_first c s : heap (intern_first c s) = heap s.
Proof. destruct c; [reflexivity | apply heap_intern]. Qed.

Lemma objectCache_intern_first c s : objectCache (intern_first c s) = objectCache s.
Proof.
  destruct c as [| x c]; [reflexivity | ]. simpl. unfold intern.
  case_bool_decide; reflexivity.
Qed.

Lemma elem_of_register p s : p ∈ objectCache (register p s).
Proof.
  unfold register. case_bool_decide as Hin; [exact Hin | ]. simpl.
  apply elem_of_app. right. apply list_elem_of_singleton. reflexivity.
Qed.

Lemma register_elem p s : p ∈ objectCache s -> register p s = s.
Proof. intros Hin. unfold register. rewrite bool_decide_eq_true_2 by exact Hin. reflexivity. Qed.

Lemma cacheSymbols_short c s :
  (length c <= 1)%nat -> cacheSymbols c s = Ret tt (intern_first c s).
Proof.
  destruct c as [| x [| y c]]; simpl; intros Hlen.
  - reflexivity.
  - apply cacheSymbols_single.
  - lia.
Qed.

(** [GetAsString] on a node of kind String that is not a link, up to the
    choice among its three encodings. *)
Lemma GetAsString_head m p s o b :
  heap s !! p = Some o -> index (data o) 0 = Some b -> is_link b = false ->
  GetType (S m) p s = Ret TYPE_STRING s ->
  GetAsString (S (S m)) p s =
    (if Byte.eqb b tag_symbol then
       d <- lift (slice_from (data o) 1);;
       ' (value, _) <- lift (parseString d);;
       cacheSymbols [value];;
       ret (value, None)
     else if Byte.eqb b tag_symlink then
       d <- lift (slice_from (data o) 1);;
       ' (refIndex, _) <- lift (parseInt d);;
       cache <- readSymbolCache;;
       value <- lift (at_index cache refIndex);;
       ret (value, None)
     else
       d <- lift (slice_from (data o) 2);;
       ' (value, _, cache) <- lift (parseStringWithEncoding d);;
       cacheSymbols cache;;
       ret (value, None)) (if is_sigil b then s else register p s).
Proof.
  intros Ho Hb Hlb Hk.
  assert (first_is (data o) is_link = false) as Hl
    by (rewrite (tag_first_is _ _ is_link Hb); exact Hlb).
  pose proof (tag_first_is _ _ is_sigil Hb) as Hs.
  cbn [GetAsString].
  rewrite (bind_Ret _ _ _ _ _ (resolveObjectLink_plain _ _ _ Ho Hl)).
  rewrite (bind_Ret _ _ _ _ _ (assertType_ok _ _ _ _ Hk)).
  destruct (is_sigil b) eqn:Esig.
  - rewrite (bind_Ret _ _ _ _ _ (cacheObject_sigil _ _ _ _ _ Ho Hs)).
    rewrite (bind_Ret _ _ _ _ _ (load_Ret _ _ _ Ho)).
    rewrite (bind_Ret _ _ _ _ _ (lift_Ret _ _ _ Hb)). reflexivity.
  - rewrite (bind_Ret _ _ _ _ _ (cacheObject_register _ _ _ _ _ _ Ho Hs Hk eq_refl)).
    assert (heap (register p s) !! p = Some o) as Ho' by (rewrite heap_register; exact Ho).
    rewrite (bind_Ret _ _ _ _ _ (load_Ret _ _ _ Ho')).
    rewrite (bind_Ret _ _ _ _ _ (lift_Ret _ _ _ Hb)). reflexivity.
Qed.

Lemma GetAsString_twice_aux n : forall p s s1 r,
  GetAsString n p s = Ret r s1 -> GetAsString n p s1 = Ret r s1.
Proof.
  induction n as [| n IH]; intros p s s1 r H0; [discriminate | ].
  pose proof (GetAsString_ext (S n) p s s1) as Hext.
  rewrite H0 in Hext. specialize (Hext eq_refl).
  pose proof H0 as Hrun. pose proof H0 as Horig. cbn [GetAsString] in Hrun. unfold bind at 1 in Hrun.
  rewrite resolveObjectLink_eq in Hrun.
  destruct (heap s !! p) as [o | ] eqn:Ho; [ | discriminate].
  destruct (ext_heap _ _ Hext p o Ho) as (o' & Ho' & Hd & _).
  destruct (link_target s o) as [[r0 | ] | ] eqn:Et; [ | | discriminate].
  - (* a resolved link: the same node is read again *)
    assert (link_target s1 o' = Some (Some r0)) as Et'.
    { apply (link_target_grows s s1 o o' r0 Hd); [ | exact Et].
      destruct (ext_objects _ _ Hext) as (added & E & _). eauto. }
    cbn [GetAsString]. unfold bind at 1. rewrite resolveObjectLink_eq, Ho', Et'.
    apply (IH r0 s s1 r Hrun).
  - unfold bind at 1 in Hrun.
    pose proof (assertType_readonly n p TYPE_STRING s) as Hro.
    pose proof (assertType_returns n p TYPE_STRING s) as Hret.
    destruct (assertType n p TYPE_STRING s) as [e s2 | s2 | ] eqn:Ea;
      [ | discriminate | discriminate].
    assert (s2 = s) as -> by (symmetry; exact (Hro s2 eq_refl)).
    destruct (Hret e s eq_refl) as [-> | ->].
    2: { (* kind mismatch: nothing was written *)
      injection Hrun as <- <-. exact H0. }
    (* kind String *)
    assert (GetType n p s = Ret TYPE_STRING s) as Hk.
    { revert Ea. unfold assertType, bind.
      pose proof (GetType_readonly n p s) as Hg.
      destruct (GetType n p s) as [t s3 | s3 | ]; [ | discriminate | discriminate].
      assert (s3 = s) as -> by (symmetry; exact (Hg s3 eq_refl)).
      destruct (decide (t = TYPE_STRING)) as [-> | ]; [reflexivity | discriminate]. }
    destruct n as [| m]; [discriminate | ]. clear Hrun Hro Hret Ea.
    destruct (first_is (data o) is_link) eqn:Hl.
    { (* an unresolved link has kind Unknown *)
      rewrite GetType_unfold, Ho, Et in Hk.
      destruct (first_is_index _ _ Hl) as (b & Hb & Hbl). apply is_link_eq in Hbl. subst b.
      pose proof (first_is_len _ _ Hl) as Hlen.
      destruct (Z.eqb_spec (len (data o)) 0); [lia | ].
      rewrite Hb in Hk. discriminate. }
    assert (exists b, index (data o) 0 = Some b) as [b Hb].
    { rewrite (GetType_plain _ _ _ _ Ho Hl) in Hk. unfold kind_of_data in Hk.
      destruct (index (data o) 0) as [b | ]; [eauto | discriminate]. }
    assert (is_link b = false) as Hlb by (rewrite <- (tag_first_is _ _ is_link Hb); exact Hl).
    rewrite (GetAsString_head m p s o b Ho Hb Hlb Hk) in H0.
    assert (kind_of_data (data o) = TYPE_STRING) as Hkd.
    { rewrite (GetType_plain _ _ _ _ Ho Hl) in Hk. congruence. }
    destruct (Byte.eqb b tag_symbol) eqn:Esym.
    { (* a definition: its string is in the table after the first call *)
      apply Byte.byte_dec_bl in Esym. subst b. simpl in H0.
      destruct (slice_from (data o) 1) as [d | ] eqn:Ed; [ | discriminate].
      rewrite (bind_Ret _ _ _ _ _ (lift_Ret _ _ _ eq_refl)) in H0.
      destruct (parseString d) as [[v k] | ] eqn:Ep; [ | discriminate].
      rewrite (bind_Ret _ _ _ _ _ (lift_Ret _ _ _ eq_refl)) in H0.
      rewrite (bind_Ret _ _ _ _ _ (cacheSymbols_single _ _)) in H0.
      injection H0 as <- <-.
      assert (heap (intern v s) !! p = Some o) as Ho1 by (rewrite heap_intern; exact Ho).
      rewrite (GetAsString_symbol m _ _ _ _ _ _ Ho1 Hb Ed Ep), intern_idem. reflexivity. }
    destruct (Byte.eqb b tag_symlink) eqn:Elnk.
    { (* a symbol link: nothing was written *)
      assert (is_sigil b = true) as Hsig by (unfold is_sigil; rewrite Elnk; apply orb_true_r).
      rewrite Hsig in H0.
      assert (s = s1) as <-; [ | exact Horig].
      revert H0.
      match goal with
      | |- ?body s = _ -> _ =>
          assert (respects eq body) as Hbody by respects_auto;
          intros H0; apply (Hbody s s1); rewrite H0; reflexivity
      end. }
    (* an I-string: the node and its symbol are in the tables after the first call *)
    assert (is_sigil b = false) as Hsig.
    { unfold is_sigil. rewrite Hlb, Esym, Elnk. reflexivity. }
    rewrite Hsig in H0.
    destruct (slice_from (data o) 2) as [d | ] eqn:Ed; [ | discriminate].
    rewrite (bind_Ret _ _ _ _ _ (lift_Ret _ _ _ eq_refl)) in H0.
    destruct (parseStringWithEncoding d) as [[[v k] cache] | ] eqn:Ep; [ | discriminate].
    rewrite (bind_Ret _ _ _ _ _ (lift_Ret _ _ _ eq_refl)) in H0.
    pose proof (parseStringWithEncoding_cache _ _ _ _ Ep) as Hshort.
    rewrite (bind_Ret _ _ _ _ _ (cacheSymbols_short _ _ Hshort)) in H0.
    injection H0 as <- <-.
    set (s1 := intern_first cache (register p s)).
    assert (heap s1 !! p = Some o) as Ho1.
    { subst s1. rewrite heap_intern_first, heap_register. exact Ho. }
    assert (GetType (S m) p s1 = Ret TYPE_STRING s1) as Hk1.
    { rewrite (GetType_plain _ _ _ _ Ho1 Hl), Hkd. reflexivity. }
    assert (register p s1 = s1) as Hreg.
    { apply register_elem. subst s1. rewrite objectCache_intern_first.
      apply elem_of_register. }
    rewrite (GetAsString_head m p s1 o b Ho1 Hb Hlb Hk1), Esym, Elnk, Hsig, Hreg.
    rewrite (bind_Ret _ _ _ _ _ (lift_Ret _ _ _ Ed)).
    rewrite (bind_Ret _ _ _ _ _ (lift_Ret _ _ _ Ep)).
    rewrite (bind_Ret _ _ _ _ _ (cacheSymbols_short _ _ Hshort)).
    subst s1. rewrite intern_first_idem. reflexivity.
Qed.

(** X14: reading a string twice.  When [GetAsString] returns on a node
    (a value or an error), the same call in the store it left returns the
    same result and writes nothing: the first call has registered whatever
    the node registers. *)
Theorem GetAsString_twice (n : nat) (p : ptr) (s s1 : State)
    (r : string * option error) :
  GetAsString n p s = Ret r s1 -> GetAsString n p s1 = Ret r s1.
Proof. apply GetAsString_twice_aux. Qed.

Lemma GetAsString_twice_witness :
  let s1 := Store (heap hi_store) ["E"%string] [0%nat] in
  GetAsString 2 0%nat hi_store = Ret ("hi"%string, None) s1 /\
  GetAsString 2 0%nat s1 = Ret ("hi"%string, None) s1.
Proof.
  intros s1. assert (GetAsString 2 0%nat hi_store = Ret ("hi"%string, None) s1) as Hfirst
    by (vm_compute; reflexivity).
  split; [exact Hfirst | ].
  exact (GetAsString_twice 2 0%nat hi_store s1 _ Hfirst).
Defined.

(** ** Sizes *)

Lemma parseString_size_small d v k : parseString d = Some (v, k) -> add64 1 k = 1 + k.
Proof.
  intros Hp. destruct (proj1 (parseString_facts d) v k Hp) as (l & h & Hi & Hl & -> & _).
  pose proof (parseInt_range _ _ _ Hi) as Hr.
  pose proof (parseInt_length_small _ _ _ Hi) as Hh.
  assert (1 <= h <= 6) as Hh6.
  { destruct (index d 0) as [b | ] eqn:E0.
    - destruct (proj2 (parseInt_success d) b E0) as [_ Hn].
      destruct (Hn l h Hi) as (_ & Hk & _). exact Hk.
    - rewrite (proj1 (parseInt_success d) E0) in Hi. discriminate. }
  unfold add64. apply int64_small. lia.
Qed.

Lemma parseInt_size_small d v k : parseInt d = Some (v, k) -> add64 1 k = 1 + k.
Proof.
  intros Hp. pose proof (parseInt_length_small _ _ _ Hp) as Hk.
  unfold add64 in *. rewrite Z.add_comm. rewrite Hk. lia.
Qed.

Section Sizes.
Context `{Strconv}.

(** [getSize] on a node that is not a link, up to the choice by kind. *)
Lemma getSize_head m p s o :
  heap s !! p = Some o -> first_is (data o) is_link = false ->
  getSize (S (S m)) p s =
    match kind_of_data (data o) with
    | TYPE_NIL | TYPE_BOOL => ret (add64 0 1)
    | TYPE_INTEGER =>
        d <- lift (slice_from (data o) 1);;
        ' (_, dataSize) <- lift (parseInt d);;
        ret (add64 1 dataSize)
    | TYPE_STRING | TYPE_FLOAT =>
        b <- lift (index (data o) 0);;
        if Byte.eqb b tag_symlink then
          d <- lift (slice_from (data o) 1);;
          ' (_, dataSize) <- lift (parseInt d);;
          ret (add64 1 dataSize)
        else if Byte.eqb b tag_ivar then
          d <- lift (slice_from (data o) 2);;
          ' (_, dataSize, cache) <- lift (parseStringWithEncoding d);;
          cacheSymbols cache;;
          ret (add64 2 dataSize)
        else
          d <- lift (slice_from (data o) 1);;
          ' (symbol, dataSize) <- lift (parseString d);;
          cacheSymbols [symbol];;
          ret (add64 1 dataSize)
    | TYPE_ARRAY =>
        (if size o =? 0 then GetAsArray (S m) p;; ret tt else ret tt);;
        o' <- load p;;
        ret (size o')
    | TYPE_MAP =>
        (if size o =? 0 then GetAsMap (S m) p;; ret tt else ret tt);;
        o' <- load p;;
        ret (size o')
    | TYPE_UNKNOWN => ret (add64 0 0)
    end s.
Proof.
  intros Ho Hl. cbn [getSize].
  rewrite (bind_Ret _ _ _ _ _ (load_Ret _ _ _ Ho)). rewrite Hl.
  rewrite (bind_Ret _ _ _ _ _ (GetType_plain m _ _ _ Ho Hl)). reflexivity.
Qed.

End Sizes.

(** X15: measuring a float interns its text as a symbol.  On a float
    node [getSize] returns 1 plus the size of the length-prefixed text
    and leaves the text of the float in the symbol table (appended if it
    was not there), as it does with the string of a symbol definition:
    the positions that later symbol links count are shifted by it. *)
Theorem getSize_interns_float_text `{Strconv} (m : nat) (p : ptr) (s : State)
    (o : MarshalledObject) (d : slice) (txt : string) (k : Z) :
  heap s !! p = Some o -> index (data o) 0 = Some tag_float ->
  slice_from (data o) 1 = Some d -> parseString d = Some (txt, k) ->
  getSize (S (S m)) p s = Ret (1 + k) (intern txt s) /\
  txt ∈ symbolCache (intern txt s).
Proof.
  intros Ho Hb Hd Hp. split.
  - rewrite (getSize_head m p s o Ho) by (rewrite (tag_first_is _ _ is_link Hb); reflexivity).
    unfold kind_of_data. rewrite Hb.
    change (type_of_tag (data o) tag_float) with TYPE_FLOAT. cbv iota.
    rewrite (bind_Ret _ _ _ _ _ (lift_Ret _ _ _ eq_refl)).
    change (Byte.eqb tag_float tag_symlink) with false.
    change (Byte.eqb tag_float tag_ivar) with false. cbv iota.
    rewrite (bind_Ret _ _ _ _ _ (lift_Ret _ _ _ Hd)).
    rewrite (bind_Ret _ _ _ _ _ (lift_Ret _ _ _ Hp)).
    rewrite (bind_Ret _ _ _ _ _ (cacheSymbols_single _ _)).
    rewrite (parseString_size_small _ _ _ Hp). reflexivity.
  - unfold intern. case_bool_decide as Hin; [exact Hin | ]. simpl.
    apply elem_of_app. right. apply list_elem_of_singleton. reflexivity.
Qed.

Lemma getSize_interns_float_text_witness :
  let s := Store [Node x04 x08 (buf [x66; x08; x31; x2e; x35]) 5] [] [] in
  getSize (H := literal_strconv) 2 0%nat s =
    Ret 5 (Store (heap s) ["1.5"%string] []).
Proof.
  intros s.
  destruct (getSize_interns_float_text (H := literal_strconv) 0 0%nat s
              (Node x04 x08 (buf [x66; x08; x31; x2e; x35]) 5)
              (buf [x08; x31; x2e; x35]) "1.5"%string 4
              eq_refl eq_refl eq_refl eq_refl) as [Hsize _].
  exact Hsize.
Defined.

(** X16: sizes that need no walk.  [getSize] returns, and leaves the store
    as it was: on a link, 1 plus the length of its index, whatever the
    object table holds (the link is not followed); on a node that is not a
    link, 1 for the kinds Nil and Bool, 1 plus the length of the varint
    for the kind Integer, 0 for the kind Unknown (an empty node or an
    unsupported tag), and, for the kinds Array and Map, the size the node
    carries when that is not 0. *)
Theorem getSize_without_walk `{Strconv} (m : nat) (p : ptr) (s : State)
    (o : MarshalledObject) :
  heap s !! p = Some o ->
  (first_is (data o) is_link = true ->
   forall d idx k, slice_from (data o) 1 = Some d -> parseInt d = Some (idx, k) ->
     getSize (S m) p s = Ret (1 + k) s) /\
  (first_is (data o) is_link = false ->
   (kind_of_data (data o) = TYPE_NIL \/ kind_of_data (data o) = TYPE_BOOL ->
    getSize (S (S m)) p s = Ret 1 s) /\
   (kind_of_data (data o) = TYPE_INTEGER ->
    forall d v k, slice_from (data o) 1 = Some d -> parseInt d = Some (v, k) ->
      getSize (S (S m)) p s = Ret (1 + k) s) /\
   (kind_of_data (data o) = TYPE_UNKNOWN -> getSize (S (S m)) p s = Ret 0 s) /\
   (kind_of_data (data o) = TYPE_ARRAY \/ kind_of_data (data o) = TYPE_MAP ->
    size o <> 0 -> getSize (S (S m)) p s = Ret (size o) s)).
Proof.
  intros Ho. split.
  - intros Hl d idx k Hd Hp. cbn [getSize].
    rewrite (bind_Ret _ _ _ _ _ (load_Ret _ _ _ Ho)). rewrite Hl.
    rewrite (bind_Ret _ _ _ _ _ (lift_Ret _ _ _ Hd)).
    rewrite (bind_Ret _ _ _ _ _ (lift_Ret _ _ _ Hp)).
    rewrite (parseInt_size_small _ _ _ Hp). reflexivity.
  - intros Hl. split; [ | split; [ | split]].
    + intros [Hk | Hk]; rewrite (getSize_head m p s o Ho Hl), Hk; reflexivity.
    + intros Hk d v k Hd Hp. rewrite (getSize_head m p s o Ho Hl), Hk.
      rewrite (bind_Ret _ _ _ _ _ (lift_Ret _ _ _ Hd)).
      rewrite (bind_Ret _ _ _ _ _ (lift_Ret _ _ _ Hp)).
      rewrite (parseInt_size_small _ _ _ Hp). reflexivity.
    + intros Hk. rewrite (getSize_head m p s o Ho Hl), Hk. reflexivity.
    + intros [Hk | Hk] Hsz; rewrite (getSize_head m p s o Ho Hl), Hk;
        destruct (Z.eqb_spec (size o) 0); try contradiction;
        rewrite (bind_Ret _ _ _ _ _ (eq_refl : ret tt s = Ret tt s));
        rewrite (bind_Ret _ _ _ _ _ (load_Ret _ _ _ Ho)); reflexivity.
Qed.

Lemma getSize_without_walk_witness :
  getSize (H := literal_strconv) 1 6%nat links_store = Ret 2 links_store /\
  getSize (H := literal_strconv) 2 4%nat links_store = Ret 2 links_store /\
  getSize (H := literal_strconv) 2 0%nat links_store = Ret 9 links_store.
Proof.
  split; [ | split].
  - destruct (getSize_without_walk (H := literal_strconv) 0 6%nat links_store _ eq_refl)
      as [Hlink _].
    apply (Hlink eq_refl (Slice [x06] [x40; x07]) 1 1); reflexivity.
  - destruct (getSize_without_walk (H := literal_strconv) 0 4%nat links_store _ eq_refl)
      as [_ Hplain].
    destruct (Hplain eq_refl) as (_ & Hint & _).
    apply (Hint eq_refl (Slice [x2f] [x40; x06; x40; x07]) 42 1); reflexivity.
  - destruct (getSize_without_walk (H := literal_strconv) 0 0%nat links_store _ eq_refl)
      as [_ Hplain].
    destruct (Hplain eq_refl) as (_ & _ & _ & Hcont).
    apply Hcont; [left; reflexivity | vm_compute; discriminate].
Defined.

(** ** Texts *)

Lemma ToString_writes_through_GetAsString_witness :
  let s' := Store (heap hi_store) ["E"%string] [0%nat] in
  s' = hi_store \/ final (GetAsString 2 0%nat hi_store) = Some s'.
Proof.
  intros s'.
  apply (ToString_writes_through_GetAsString (H := literal_strconv) 2 0%nat hi_store s').
  vm_compute. reflexivity.
Defined.

(** X18: the text of a node that is not a link.  [ToString] returns, and
    leaves the store as it was: the text <nil> for the kind Nil; true or
    false for the kind Bool, by the tag; the empty text for the kinds
    Array, Map and Unknown; the decimal text of the varint for the kind
    Integer; and, for the kind Float, the text that [FormatFloat] gives for
    whatever value [ParseFloat] returned, its error dropped. *)
Theorem ToString_of_plain_node `{Strconv} (m : nat) (p : ptr) (s : State)
    (o : MarshalledObject) :
  heap s !! p = Some o -> first_is (data o) is_link = false ->
  (kind_of_data (data o) = TYPE_NIL -> ToString (S m) p s = Ret "<nil>"%string s) /\
  (kind_of_data (data o) = TYPE_BOOL ->
   forall b, index (data o) 0 = Some b ->
     ToString (S m) p s =
       Ret (if Byte.eqb b tag_true then "true" else "false")%string s) /\
  (kind_of_data (data o) = TYPE_ARRAY \/ kind_of_data (data o) = TYPE_MAP \/
   kind_of_data (data o) = TYPE_UNKNOWN ->
   ToString (S m) p s = Ret EmptyString s) /\
  (kind_of_data (data o) = TYPE_INTEGER ->
   forall d v k, slice_from (data o) 1 = Some d -> parseInt d = Some (v, k) ->
     ToString (S m) p s = Ret (FormatInt v) s) /\
  (kind_of_data (data o) = TYPE_FLOAT ->
   forall d txt k, slice_from (data o) 1 = Some d -> parseString d = Some (txt, k) ->
     ToString (S m) p s = Ret (FormatFloat (fst (ParseFloat txt))) s).
Proof.
  intros Ho Hl. pose proof (GetType_plain m _ _ _ Ho Hl) as Hk.
  split; [ | split; [ | split; [ | split]]].
  - intros Hkd. rewrite Hkd in Hk. unfold ToString.
    rewrite (bind_Ret _ _ _ _ _ Hk). reflexivity.
  - intros Hkd b Hb. rewrite Hkd in Hk. unfold ToString.
    rewrite (bind_Ret _ _ _ _ _ Hk). cbv iota.
    unfold GetAsBool, bind. rewrite (assertType_ok _ _ _ _ Hk).
    unfold load. rewrite Ho. unfold parseBool. rewrite Hb. reflexivity.
  - intros Hkd. unfold ToString.
    destruct Hkd as [Hkd | [Hkd | Hkd]]; rewrite Hkd in Hk;
      rewrite (bind_Ret _ _ _ _ _ Hk); reflexivity.
  - intros Hkd d v k Hd Hp. rewrite Hkd in Hk. unfold ToString.
    rewrite (bind_Ret _ _ _ _ _ Hk). cbv iota.
    unfold GetAsInteger, bind. rewrite (assertType_ok _ _ _ _ Hk).
    unfold load. rewrite Ho. simpl. rewrite Hd. simpl. rewrite Hp. reflexivity.
  - intros Hkd d txt k Hd Hp. rewrite Hkd in Hk. unfold ToString.
    rewrite (bind_Ret _ _ _ _ _ Hk). cbv iota.
    unfold GetAsFloat, bind. rewrite (assertType_ok _ _ _ _ Hk).
    unfold load. rewrite Ho. simpl. rewrite Hd. simpl. rewrite Hp. simpl.
    destruct (ParseFloat txt) as [value err]. reflexivity.
Qed.

Lemma ToString_of_plain_node_witness :
  ToString (H := literal_strconv) 1 2%nat links_store = Ret "true"%string links_store /\
  ToString (H := literal_strconv) 1 4%nat links_store = Ret "42"%string links_store /\
  ToString (H := literal_strconv) 1 0%nat links_store = Ret EmptyString links_store.
Proof.
  split; [ | split].
  - destruct (ToString_of_plain_node (H := literal_strconv) 0 2%nat links_store _
                eq_refl eq_refl) as (_ & Hbool & _).
    apply (Hbool eq_refl x54). reflexivity.
  - destruct (ToString_of_plain_node (H := literal_strconv) 0 4%nat links_store _
                eq_refl eq_refl) as (_ & _ & _ & Hint & _).
    apply (Hint eq_refl (Slice [x2f] [x40; x06; x40; x07]) 42 1); reflexivity.
  - destruct (ToString_of_plain_node (H := literal_strconv) 0 0%nat links_store _
                eq_refl eq_refl) as (_ & _ & Hcont & _).
    apply Hcont. left. reflexivity.
Defined.

(** ** The empty payload *)

(** X19: an input of exactly the two version bytes decodes to a root with
    no data: its kind is Unknown, every typed accessor returns
    [TypeMismatch], its text is empty and its size is 0, and none of
    these calls panics or writes. *)
Theorem empty_payload `{Strconv} (a b : byte) (sp : list byte) (m : nat) :
  let s0 := Store [Node a b (Slice [] sp) 0] [] [] in
  CreateMarshalledObject (Slice [a; b] sp) = Ret 0%nat s0 /\
  GetType (S m) 0%nat s0 = Ret TYPE_UNKNOWN s0 /\
  GetAsBool (S m) 0%nat s0 = Ret (false, Some TypeMismatch) s0 /\
  GetAsInteger (S m) 0%nat s0 = Ret (0, Some TypeMismatch) s0 /\
  GetAsFloat (S m) 0%nat s0 = Ret (float64_zero, Some TypeMismatch) s0 /\
  GetAsString (S (S m)) 0%nat s0 = Ret (EmptyString, Some TypeMismatch) s0 /\
  GetAsArray (S (S m)) 0%nat s0 = Ret ([], Some TypeMismatch) s0 /\
  GetAsMap (S (S m)) 0%nat s0 = Ret (∅, Some TypeMismatch) s0 /\
  ToString (S m) 0%nat s0 = Ret EmptyString s0 /\
  getSize (S (S m)) 0%nat s0 = Ret 0 s0.
Proof.
  intros s0.
  assert (GetType (S m) 0%nat s0 = Ret TYPE_UNKNOWN s0) as Hk by reflexivity.
  split; [reflexivity | ]. split; [exact Hk | ].
  split; [unfold GetAsBool, bind;
          rewrite (assertType_mismatch _ _ _ _ TYPE_BOOL Hk) by discriminate; reflexivity | ].
  split; [unfold GetAsInteger, bind;
          rewrite (assertType_mismatch _ _ _ _ TYPE_INTEGER Hk) by discriminate; reflexivity | ].
  split; [unfold GetAsFloat, bind;
          rewrite (assertType_mismatch _ _ _ _ TYPE_FLOAT Hk) by discriminate; reflexivity | ].
  split; [apply (GetAsString_mismatch _ _ _ _ Hk); discriminate | ].
  split; [apply (GetAsArray_mismatch _ _ _ _ Hk); discriminate | ].
  split; [apply (GetAsMap_mismatch _ _ _ _ Hk); discriminate | ].
  split; [unfold ToString; rewrite (bind_Ret _ _ _ _ _ Hk); reflexivity | ].
  rewrite (getSize_head m 0%nat s0 _ eq_refl eq_refl). reflexivity.
Qed.

(** ** Nodes and versions *)

Global Instance same_heap_refl : Reflexive same_heap.
Proof. intros s. reflexivity. Qed.

Global Instance same_heap_trans : Transitive same_heap.
Proof. intros s1 s2 s3 H12 H23. unfold same_heap in *. congruence. Qed.

Global Instance keeps_version_refl a b : Reflexive (keeps_version a b).
Proof. intros s Hs. exact Hs. Qed.

Global Instance keeps_version_trans a b : Transitive (keeps_version a b).
Proof. intros s1 s2 s3 H12 H23 Hs. apply H23, H12, Hs. Qed.

Lemma writeObjectCache_same_heap c : respects same_heap (writeObjectCache c).
Proof. intros s s' [= <-]. exact eq_refl. Qed.

Lemma writeSymbolCache_same_heap c : respects same_heap (writeSymbolCache c).
Proof. intros s s' [= <-]. exact eq_refl. Qed.

#[export] Hint Resolve writeObjectCache_same_heap writeSymbolCache_same_heap : frame.
#[export] Hint Extern 1 (respects same_heap _) =>
  (apply respects_eq; [typeclasses eauto | ]) : frame.

Lemma cacheObject_same_heap fuel obj object : respects same_heap (cacheObject fuel obj object).
Proof. unfold cacheObject. respects_auto. Qed.

Lemma cacheSymbols_same_heap symbols : respects same_heap (cacheSymbols symbols).
Proof. unfold cacheSymbols. respects_auto. Qed.

#[export] Hint Resolve cacheObject_same_heap cacheSymbols_same_heap : frame.

Lemma GetAsString_same_heap fuel : forall obj, respects same_heap (GetAsString fuel obj).
Proof. induction fuel as [| n IH]; intros obj; simpl; respects_auto. Qed.
#[export] Hint Resolve GetAsString_same_heap : frame.

Lemma ToString_same_heap `{Strconv} fuel obj : respects same_heap (ToString fuel obj).
Proof. unfold ToString. respects_auto. Qed.

(** X20: [GetAsString] and [ToString] neither allocate a node nor set a
    size: the nodes of the store in which they end, by returning or by
    panicking, are the nodes of the store they started in, field by
    field. *)
Theorem strings_leave_nodes `{Strconv} (fuel : nat) (p : ptr) (s s' : State) :
  final (GetAsString fuel p s) = Some s' \/ final (ToString fuel p s) = Some s' ->
  heap s' = heap s.
Proof.
  intros [Hc | Hc].
  - exact (GetAsString_same_heap fuel p s s' Hc).
  - exact (ToString_same_heap fuel p s s' Hc).
Qed.

Lemma strings_leave_nodes_witness :
  heap (Store (heap hi_store) ["E"%string] [0%nat]) = heap hi_store.
Proof.
  apply (strings_leave_nodes (H := literal_strconv) 2 0%nat hi_store).
  left. vm_compute. reflexivity.
Defined.

Section Versions.
Context `{Strconv}.
Variables a b : byte.

Lemma same_heap_keeps_version {A} (m : M A) :
  respects same_heap m -> respects (keeps_version a b) m.
Proof.
  intros Hm s s' Hs Hall. unfold all_version. rewrite (Hm s s' Hs). exact Hall.
Qed.

Lemma respects_bind_load_version {A} p (f : MarshalledObject -> M A) :
  (forall o, MajorVersion o = a -> MinorVersion o = b ->
             respects (keeps_version a b) (f o)) ->
  respects (keeps_version a b) (bind (load p) f).
Proof.
  intros Hf s s'. unfold bind, load.
  destruct (heap s !! p) as [o | ] eqn:Ho.
  - intros Hs Hall.
    destruct (proj1 (Forall_lookup _ _) Hall p o Ho) as [Ha Hb].
    exact (Hf o Ha Hb s s' Hs Hall).
  - intros [= <-]. reflexivity.
Qed.

Lemma newMarshalledObjectWithSize_version d sz :
  respects (keeps_version a b) (newMarshalledObjectWithSize a b d sz).
Proof.
  intros s s' [= <-] Hall. unfold all_version. simpl.
  apply Forall_app. split; [exact Hall | ]. constructor; [ | constructor]. auto.
Qed.

Lemma setSize_version p n : respects (keeps_version a b) (setSize p n).
Proof.
  intros s s'. unfold setSize. destruct (heap s !! p) as [o | ] eqn:Ho.
  2: { intros [= <-]. reflexivity. }
  intros [= <-] Hall. unfold all_version. simpl.
  apply Forall_insert; [exact Hall | ].
  exact (proj1 (Forall_lookup _ _) Hall p o Ho).
Qed.

Ltac version_step :=
  match goal with
  | |- respects (keeps_version _ _) (bind (load _) _) =>
      apply respects_bind_load_version; intros ? ? ?
  | Ha : MajorVersion ?o = _, Hb : MinorVersion ?o = _
    |- respects (keeps_version _ _) (newMarshalledObjectWithSize (MajorVersion ?o) _ _ _) =>
      rewrite Ha, Hb; apply newMarshalledObjectWithSize_version
  | Ha : MajorVersion ?o = _, Hb : MinorVersion ?o = _
    |- respects (keeps_version _ _) (newMarshalledObject (MajorVersion ?o) _ _) =>
      unfold newMarshalledObject; rewrite Ha, Hb; apply newMarshalledObjectWithSize_version
  | |- respects (keeps_version _ _) (setSize _ _) => apply setSize_version
  | |- respects (keeps_version _ _) (cacheObject _ _ _) =>
      apply same_heap_keeps_version, cacheObject_same_heap
  | |- respects (keeps_version _ _) (cacheSymbols _) =>
      apply same_heap_keeps_version, cacheSymbols_same_heap
  | |- respects (keeps_version _ _) (ToString _ _) =>
      apply same_heap_keeps_version, ToString_same_heap
  | |- respects (keeps_version _ _) (GetType _ _) =>
      apply respects_eq; [typeclasses eauto | apply GetType_readonly]
  | |- respects (keeps_version _ _) (assertType _ _ _) =>
      apply respects_eq; [typeclasses eauto | apply assertType_readonly]
  | |- respects (keeps_version _ _) (resolveObjectLink _) =>
      apply respects_eq; [typeclasses eauto | apply resolveObjectLink_readonly]
  | _ => respects_step
  end.

Ltac version_auto := repeat (version_step; eauto).

Lemma arrayLoop_version getSize fuel obj :
  (forall p, respects (keeps_version a b) (getSize p)) ->
  forall count offset value,
    respects (keeps_version a b) (arrayLoop getSize fuel obj count offset value).
Proof.
  intros Hgs. induction count as [| c IH]; intros offset value; simpl; version_auto.
Qed.

Lemma mapLoop_version getSize fuel obj :
  (forall p, respects (keeps_version a b) (getSize p)) ->
  forall count offset value,
    respects (keeps_version a b) (mapLoop getSize fuel obj count offset value).
Proof.
  intros Hgs. induction count as [| c IH]; intros offset value; simpl; version_auto.
Qed.

Lemma containers_version fuel :
  (forall obj, respects (keeps_version a b) (GetAsArray fuel obj)) /\
  (forall obj, respects (keeps_version a b) (GetAsMap fuel obj)) /\
  (forall obj, respects (keeps_version a b) (getSize fuel obj)).
Proof.
  induction fuel as [| n (IHa & IHm & IHs)].
  - split; [ | split]; intros obj; simpl; version_auto.
  - split; [ | split]; intros obj; simpl; version_auto;
      solve [apply arrayLoop_version; assumption | apply mapLoop_version; assumption].
Qed.

Lemma perform_version fuel c : respects (keeps_version a b) (perform fuel c).
Proof.
  destruct c; unfold perform;
    (apply respects_bind; [typeclasses eauto | | intros ?; apply respects_ret; typeclasses eauto]).
  - apply respects_eq; [typeclasses eauto | apply GetType_readonly].
  - apply respects_eq; [typeclasses eauto | apply GetAsBool_readonly].
  - apply respects_eq; [typeclasses eauto | apply GetAsInteger_readonly].
  - apply respects_eq; [typeclasses eauto | apply GetAsFloat_readonly].
  - apply same_heap_keeps_version, GetAsString_same_heap.
  - apply containers_version.
  - apply containers_version.
  - apply same_heap_keeps_version, ToString_same_heap.
  - apply containers_version.
Qed.

Lemma calls_version s s' : calls s s' -> keeps_version a b s s'.
Proof.
  induction 1 as [s | s s1 s2 fuel c _ IH Hc].
  - reflexivity.
  - etransitivity; [exact IH | ]. exact (perform_version fuel c s1 s2 Hc).
Qed.

End Versions.

(** X21: every node carries the version of its root: in every store
    reached from the decoding of an input, the [MajorVersion] and
    [MinorVersion] of every node, whichever call allocated it, are the
    first two bytes of the input. *)
Theorem nodes_carry_root_version `{Strconv} (input : slice) (a b : byte) (s : State)
    (p : ptr) (o : MarshalledObject) :
  index input 0 = Some a -> index input 1 = Some b ->
  reachable input s -> heap s !! p = Some o ->
  MajorVersion o = a /\ MinorVersion o = b.
Proof.
  intros Ha Hb (root & s0 & Hc & Hcalls) Ho.
  assert (all_version a b s0) as H0.
  { revert Hc. unfold CreateMarshalledObject, bind. rewrite Ha, Hb. simpl.
    destruct (slice_from input 2) as [d | ]; [ | discriminate].
    intros [= _ <-]. constructor; [ | constructor]. auto. }
  exact (proj1 (Forall_lookup _ _) (calls_version a b s0 s Hcalls H0) p o Ho).
Qed.

Lemma nodes_carry_root_version_witness :
  exists o, heap links_store !! 8%nat = Some o /\
    MajorVersion o = x04 /\ MinorVersion o = x08.
Proof.
  eexists. split; [reflexivity | ].
  apply (nodes_carry_root_version (H := literal_strconv)
           (buf [x04; x08; x5b; x09; x54; x69; x2f; x40; x06; x40; x07]) x04 x08
           links_store 8%nat _ eq_refl eq_refl links_store_reachable eq_refl).
Defined.

(** ** Maps and annotated strings *)

Section MapSize.
Context `{Strconv}.

Lemma mapLoop_size getSize fuel obj : forall count offset value,
  returns (fun r => (base.size (fst r) <= base.size value + count)%nat)
          (mapLoop getSize fuel obj count offset value).
Proof.
  induction count as [| c IH]; intros offset value; cbn [mapLoop].
  - apply returns_ret. simpl. lia.
  - do 12 (apply returns_bind; intros ?).
    intros s r s' Hr. pose proof (IH _ _ s r s' Hr) as Hle.
    rewrite map_size_insert in Hle.
    destruct (value !! _) in Hle; simpl in Hle; lia.
Qed.

(** The loop of [GetAsMap] stores the pairs of [mapLoopPairs], in their
    order, and ends in the same store. *)
Lemma mapLoop_pairs getSize fuel obj : forall count offset value s,
  mapLoop getSize fuel obj count offset value s =
  match mapLoopPairs getSize fuel obj count offset s with
  | Ret (pairs, offset') s' => Ret (store_pairs pairs value, offset') s'
  | Panic s' => Panic s'
  | OutOfFuel => OutOfFuel
  end.
Proof.
  induction count as [| c IH]; intros offset value s; cbn [mapLoop mapLoopPairs].
  - reflexivity.
  - unfold bind.
    repeat match goal with
    | |- match ?x with _ => _ end = match match ?x with _ => _ end with _ => _ end =>
        destruct x as [? ? | ? | ]; [ | reflexivity | reflexivity]
    end.
    rewrite IH.
    match goal with
    | |- _ = match match ?x with _ => _ end with _ => _ end =>
        destruct x as [[pairs offset'] s' | s' | ]; reflexivity
    end.
Qed.

Lemma mapLoopPairs_length getSize fuel obj : forall count offset,
  returns (fun r => length (fst r) = count) (mapLoopPairs getSize fuel obj count offset).
Proof.
  induction count as [| c IH]; intros offset; cbn [mapLoopPairs].
  - apply returns_ret. reflexivity.
  - do 12 (apply returns_bind; intros ?).
    apply (returns_bind_with _ _ _ _ (IH _)). intros [pairs offset'] Hlen.
    apply returns_ret. simpl in *. congruence.
Qed.

End MapSize.

Lemma store_pairs_absent pairs : forall value key,
  (forall j v', pairs !! j <> Some (key, v')) ->
  store_pairs pairs value !! key = value !! key.
Proof.
  induction pairs as [| [k0 v0] l IH]; intros value key Hno; [reflexivity | ].
  change (store_pairs l (<[k0 := v0]> value) !! key = value !! key).
  rewrite IH by (intros j v'; exact (Hno (S j) v')).
  apply lookup_insert_ne. intros ->. exact (Hno 0%nat v0 eq_refl).
Qed.

(** The last pair with a text is the one the map holds. *)
Lemma store_pairs_last pairs : forall value i key v,
  last_with pairs key i v -> store_pairs pairs value !! key = Some v.
Proof.
  induction pairs as [| [k0 v0] l IH]; intros value i key v [Hi Hlater]; [discriminate | ].
  change (store_pairs l (<[k0 := v0]> value) !! key = Some v).
  destruct i as [| i].
  - injection Hi as -> ->.
    rewrite store_pairs_absent.
    + apply lookup_insert_eq.
    + intros j v'. apply (Hlater (S j) v'). lia.
  - apply (IH _ i). split; [exact Hi | ].
    intros j v' Hj. apply (Hlater (S j) v'). lia.
Qed.

(** What the map holds is what it held before, under a text that no pair
    has, or the last pair with its text. *)
Lemma store_pairs_inv pairs : forall value key v,
  store_pairs pairs value !! key = Some v ->
  (value !! key = Some v /\ forall j v', pairs !! j <> Some (key, v')) \/
  exists i, last_with pairs key i v.
Proof.
  induction pairs as [| [k0 v0] l IH]; intros value key v Hv.
  - left. split; [exact Hv | ]. intros j v'. rewrite lookup_nil. discriminate.
  - change (store_pairs l (<[k0 := v0]> value) !! key = Some v) in Hv.
    destruct (IH _ _ _ Hv) as [[Hin Hno] | [i [Hi Hlater]]].
    + destruct (decide (k0 = key)) as [-> | Hne].
      * rewrite lookup_insert_eq in Hin. injection Hin as ->.
        right. exists 0%nat. split; [reflexivity | ].
        intros [| j] v' Hj; [lia | ]. exact (Hno j v').
      * rewrite lookup_insert_ne in Hin by exact Hne.
        left. split; [exact Hin | ].
        intros [| j] v'; [ | exact (Hno j v')].
        simpl. congruence.
    + right. exists (S i). split; [exact Hi | ].
      intros [| j] v' Hj; [lia | ]. apply (Hlater j v'). lia.
Qed.

(** X22: when [GetAsMap] returns on a map node, it returns no error and
    the map in which the pairs of the payload have been stored in their
    order, one pair for each unit of the count: the map has at most as
    many entries as the count announces, under each text it holds the
    value of the last pair with that text (a later value replaces an
    earlier one with the same key text), and it holds nothing else. *)
Theorem GetAsMap_size `{Strconv} (m : nat) (p : ptr) (s s' : State)
    (o : MarshalledObject) (d : slice) (n k : Z)
    (value : gmap string ptr) (err : option error) :
  heap s !! p = Some o -> index (data o) 0 = Some tag_map ->
  slice_from (data o) 1 = Some d -> parseInt d = Some (n, k) ->
  GetAsMap (S (S m)) p s = Ret (value, err) s' ->
  err = None /\ Z.of_nat (base.size value) <= Z.max 0 n /\
  exists pairs offset,
    value_of (mapLoopPairs (getSize (S m)) (S m) p (Z.to_nat n) (k + 1) (register p s))
      = Some (pairs, offset) /\
    length pairs = Z.to_nat n /\
    value = store_pairs pairs ∅ /\
    (forall i key v, last_with pairs key i v -> value !! key = Some v) /\
    (forall key v, value !! key = Some v -> exists i, last_with pairs key i v).
Proof.
  intros Ho Hb Hd Hp. rewrite (GetAsMap_head _ _ _ _ _ _ _ Ho Hb Hd Hp).
  unfold bind at 1.
  destruct (mapLoop (getSize (S m)) (S m) p (Z.to_nat n) (k + 1) ∅ (register p s))
    as [[v offset] s1 | s1 | ] eqn:Eloop; [ | discriminate | discriminate].
  pose proof (mapLoop_size _ _ _ _ _ _ _ _ _ Eloop) as Hlen. simpl in Hlen.
  rewrite map_size_empty in Hlen.
  rewrite mapLoop_pairs in Eloop.
  destruct (mapLoopPairs (getSize (S m)) (S m) p (Z.to_nat n) (k + 1) (register p s))
    as [[pairs offset'] s1' | s1' | ] eqn:Epairs; [ | discriminate | discriminate].
  injection Eloop as <- <- <-.
  pose proof (mapLoopPairs_length _ _ _ _ _ _ _ _ Epairs) as Hcount. simpl in Hcount.
  unfold bind, ret. destruct (setSize p offset' s1') as [[] s2 | s2 | ]; [ | discriminate..].
  intros [= <- <- _]. split; [reflexivity | ]. split; [lia | ].
  exists pairs, offset'. split; [reflexivity | ]. split; [exact Hcount | ].
  split; [reflexivity | ]. split.
  - intros i key v. apply store_pairs_last.
  - intros key v Hv. destruct (store_pairs_inv _ _ _ _ Hv) as [[Hin _] | Hlast].
    + rewrite lookup_empty in Hin. discriminate.
    + exact Hlast.
Qed.

Lemma GetAsMap_size_witness :
  exists value s',
    GetAsMap (H := literal_strconv) 4 0%nat same_key_store = Ret (value, None) s' /\
    Z.of_nat (base.size value) <= Z.max 0 2 /\
    base.size value = 1%nat /\
    value !! "a"%string = Some 6%nat /\
    (vis ∘ data) <$> heap s' !! 3%nat = Some [x30] /\
    (vis ∘ data) <$> heap s' !! 6%nat = Some [x54].
Proof.
  destruct (GetAsMap (H := literal_strconv) 4 0%nat same_key_store)
    as [[value err] s' | | ] eqn:E; [ | vm_compute in E; discriminate..].
  exists value, s'.
  destruct (GetAsMap_size (H := literal_strconv) 2 0%nat same_key_store s' _
              (buf [x07; x3a; x06; x61; x30; x3b; x00; x54]) 2 1 value err
              eq_refl eq_refl eq_refl eq_refl E)
    as (-> & Hle & pairs & offset & Hpairs & _ & Hvalue & Hlast & _).
  split; [reflexivity | ]. split; [exact Hle | ].
  vm_compute in Hpairs. injection Hpairs as <- _.
  split; [rewrite Hvalue; reflexivity | ].
  split.
  - apply (Hlast 1%nat). split; [reflexivity | ].
    intros [| [| j]] v' Hj; [lia | lia | discriminate].
  - vm_compute in E. injection E as _ <-. split; reflexivity.
Defined.

(** X23: the value of an annotated string is the string of its raw body,
    and at most one symbol comes with it: when [parseStringWithEncoding]
    returns, [parseString] returns on the same bytes, with the same
    string, and the list of symbols to intern holds at most one (the
    annotation's name, when it is a definition). *)
Theorem parseStringWithEncoding_value (data : slice) (v : string) (sz : Z)
    (cache : list string) :
  parseStringWithEncoding data = Some (v, sz, cache) ->
  (exists k, parseString data = Some (v, k)) /\ (length cache <= 1)%nat.
Proof.
  intros Hp. split; [ | exact (parseStringWithEncoding_cache _ _ _ _ Hp)].
  revert Hp. unfold parseStringWithEncoding.
  destruct (parseString data) as [[value size0] | ]; [ | discriminate].
  cbn [mbind option_bind]. intros Hp. exists size0.
  destruct (add64 size0 1 <? len data); [ | congruence].
  destruct (index data (add64 size0 1)) as [c | ]; [ | discriminate].
  cbn [mbind option_bind] in Hp.
  destruct (Byte.eqb c tag_symbol || Byte.eqb c tag_symlink); [ | congruence].
  match type of Hp with (?x ≫= _) = _ => destruct x as [[size1 cache1] | ] end;
    [ | discriminate].
  cbn [mbind option_bind] in Hp.
  destruct (index data (add64 size1 1)); [ | discriminate].
  cbn [mbind option_bind] in Hp.
  match type of Hp with (?x ≫= _) = _ => destruct x end; [ | discriminate].
  cbn [mbind option_bind] in Hp. congruence.
Qed.

Lemma parseStringWithEncoding_value_witness :
  (exists k, parseString (buf [x07; x68; x69; x06; x3a; x06; x45; x54]) = Some ("hi"%string, k)) /\
  (length ["E"%string] <= 1)%nat.
Proof.
  apply (parseStringWithEncoding_value _ "hi"%string 8 ["E"%string]). reflexivity.
Defined.

(** * The errors and the panics of the typed accessors *)







